(** * celebrity-sampling: the scraping helpers and the snowball traversal

    A shallow embedding of [scripts/wd_utils.py], [scripts/snowball_collector.py],
    [scripts/alphabet_collector.py] and the record reading of
    [scripts/compare_samples.py], followed by the properties of the
    specification that were checked against it and by further properties of
    the code.

    Modelling conventions.
    - A Python [str] is a [string], read as ASCII, which is what slugs, hrefs
      and the digits and keywords looked for are made of: [str.lower],
      [str.strip], [str.isdigit], [\w], [\d] and [\s] follow their rules on
      ASCII.  The properties of the readers of words and of digits, which
      depend on how a character is classified, are stated for texts of ASCII
      characters ([ascii_text]).
    - A Python [int] is a [Z]; [int(s)] raises over the interpreter's limit
      on digits.
    - What depends on the release or the configuration of the interpreter is
      a field of the class [interpreter], and every property holds for every
      interpreter.
    - A Python [set] of slugs is a [gset string]; lists are lists.
    - [None] is [None]; a raised exception that nothing catches is [Raised].
    - A parsed page ([BeautifulSoup]) is the record [soup] of what the selector
      queries of the code find in it.
    - The network is an oracle [fetch] from the events so far and the requested
      slug to the page, [None] when [fetch_soup] raises.  Every fetch and every
      [sleep_rate_limit] is recorded in a chronological trace of [event]s;
      logging is not modelled. *)

From Stdlib Require Import Ascii ZArith Lia.
From stdpp Require Import gmap strings list pretty.

#[local] Set Warnings "-clear-no-such-hyp".
Local Open Scope Z_scope.
Local Arguments String.append !_ _ / : simpl nomatch.

(** ** Results of fallible code *)

Inductive res (A : Type) : Type :=
| Ok (a : A)
| Raised.
Arguments Ok {A} a.
Arguments Raised {A}.

Definition res_bind {A B} (r : res A) (k : A → res B) : res B :=
  match r with
  | Ok a => k a
  | Raised => Raised
  end.

Notation "x ←r e ; k" := (res_bind e (λ x, k))
  (at level 100, e at next level, k at level 200, right associativity).

(** ** Python string primitives (ASCII) *)

Definition code (c : ascii) : nat := nat_of_ascii c.

Definition is_upper (c : ascii) : bool := (65 <=? code c)%nat && (code c <=? 90)%nat.
Definition is_lower (c : ascii) : bool := (97 <=? code c)%nat && (code c <=? 122)%nat.
Definition is_alpha (c : ascii) : bool := is_upper c || is_lower c.
Definition is_digit (c : ascii) : bool := (48 <=? code c)%nat && (code c <=? 57)%nat.
Definition is_ascii (c : ascii) : bool := (code c <? 128)%nat.

(** [\w] of [re]: letters, digits and the underscore. *)
Definition is_word_char (c : ascii) : bool :=
  is_alpha c || is_digit c || (code c =? 95)%nat.

(** The characters [str.strip()] removes: TAB, LF, VT, FF, CR, FS, GS, RS, US
    and the space. *)
Definition is_space (c : ascii) : bool :=
  ((9 <=? code c)%nat && (code c <=? 13)%nat)
  || ((28 <=? code c)%nat && (code c <=? 32)%nat).

Definition lower_char (c : ascii) : ascii :=
  if is_upper c then ascii_of_nat (code c + 32) else c.

(** [s.lower()] *)
Fixpoint lower (s : string) : string :=
  match s with
  | EmptyString => EmptyString
  | String c t => String (lower_char c) (lower t)
  end.

(** [not s] on a string *)
Definition is_empty (s : string) : bool :=
  match s with
  | EmptyString => true
  | String _ _ => false
  end.

(** [s.startswith(p)] *)
Fixpoint startswith (p s : string) : bool :=
  match p, s with
  | EmptyString, _ => true
  | String _ _, EmptyString => false
  | String a p', String b s' => if decide (a = b) then startswith p' s' else false
  end.

(** [s.endswith(p)]: some tail of [s] is [p]. *)
Fixpoint endswith (p s : string) : bool :=
  if decide (s = p) then true
  else match s with
       | EmptyString => false
       | String _ s' => endswith p s'
       end.

(** [sub in s] *)
Fixpoint contains (sub s : string) : bool :=
  if startswith sub s then true
  else match s with
       | EmptyString => false
       | String _ s' => contains sub s'
       end.

(** [c in s] for a single character *)
Fixpoint has_char (c : ascii) (s : string) : bool :=
  match s with
  | EmptyString => false
  | String a t => if decide (a = c) then true else has_char c t
  end.

(** [s.lstrip(chars)] and [s.rstrip(chars)], the character set given as a
    predicate. *)
Fixpoint lstrip (p : ascii → bool) (s : string) : string :=
  match s with
  | EmptyString => EmptyString
  | String c t => if p c then lstrip p t else s
  end.

Fixpoint rstrip (p : ascii → bool) (s : string) : string :=
  match s with
  | EmptyString => EmptyString
  | String c t =>
      let t' := rstrip p t in
      if is_empty t' && p c then EmptyString else String c t'
  end.

Definition strip (p : ascii → bool) (s : string) : string :=
  rstrip p (lstrip p s).

Definition is_slash (c : ascii) : bool := bool_decide (c = "/"%char).

(** [s.split(sep)] for a one-character separator: never the empty list. *)
Fixpoint split (sep : ascii) (s : string) : list string :=
  match s with
  | EmptyString => [EmptyString]
  | String c t =>
      if decide (c = sep) then EmptyString :: split sep t
      else match split sep t with
           | [] => [String c EmptyString]
           | p :: ps => String c p :: ps
           end
  end.

(** The part of [s] before the first [sep] (all of [s] when there is none):
    [s.split(sep, 1)[0]]. *)
Fixpoint before (sep : ascii) (s : string) : string :=
  match s with
  | EmptyString => EmptyString
  | String c t => if decide (c = sep) then EmptyString else String c (before sep t)
  end.

(** The part of [s] after the first [sep], [None] when there is none. *)
Fixpoint after (sep : ascii) (s : string) : option string :=
  match s with
  | EmptyString => None
  | String c t => if decide (c = sep) then Some t else after sep t
  end.

Fixpoint str_filter (p : ascii → bool) (s : string) : string :=
  match s with
  | EmptyString => EmptyString
  | String c t => if p c then String c (str_filter p t) else str_filter p t
  end.

Fixpoint str_forall (p : ascii → bool) (s : string) : bool :=
  match s with
  | EmptyString => true
  | String c t => p c && str_forall p t
  end.

(** [s.isascii()] *)
Definition isascii (s : string) : bool := str_forall is_ascii s.

(** [s.isdigit()]: non-empty and all digits. *)
Definition isdigit (s : string) : bool := negb (is_empty s) && str_forall is_digit s.

(** The value of a string of decimal digits. *)
Definition digit_value (c : ascii) : Z := Z.of_nat (code c - 48).

Fixpoint int_of_digits_from (acc : Z) (s : string) : Z :=
  match s with
  | EmptyString => acc
  | String c t => int_of_digits_from (10 * acc + digit_value c) t
  end.

Definition int_of_digits (s : string) : Z := int_of_digits_from 0 s.

(** The longest prefix of digits. *)
Fixpoint take_digits (s : string) : string :=
  match s with
  | EmptyString => EmptyString
  | String c t => if is_digit c then String c (take_digits t) else EmptyString
  end.

(** [re.search(r"(\d+)", s)]: the first maximal run of digits, if any. *)
Fixpoint search_digits (s : string) : option string :=
  match s with
  | EmptyString => None
  | String c t => if is_digit c then Some (String c (take_digits t)) else search_digits t
  end.

(** [re.search(r"\bw\b", s)] for a word [w] that starts and ends with a word
    character: an occurrence of [w] neither preceded nor followed by a word
    character.  [prev] tells whether the character before [s] is a word
    character. *)
Definition boundary_after (w s : string) : bool :=
  match String.get (String.length w) s with
  | None => true
  | Some c => negb (is_word_char c)
  end.

Fixpoint search_word_from (prev : bool) (w s : string) : bool :=
  if negb prev && startswith w s && boundary_after w s then true
  else match s with
       | EmptyString => false
       | String c t => search_word_from (is_word_char c) w t
       end.

Definition search_word (w s : string) : bool := search_word_from false w s.

(** [l[:n]] *)
Definition slice_to {A} (l : list A) (n : Z) : list A :=
  if 0 <=? n then take (Z.to_nat n) l
  else take (length l - Z.to_nat (- n))%nat l.

(** ** The interpreter

    What the code takes from the interpreter it runs on:
    - the two checks [urlsplit] makes of an authority whose brackets match,
      [_check_bracketed_netloc] of an authority with brackets and
      [_checknetloc] of one with characters beyond ASCII, which differ
      between releases: [true] when the check passes, [false] when it raises
      [ValueError];
    - [sys.get_int_max_str_digits()], the limit on the digits [int] converts:
      4300 unless configured, 0 for no limit. *)
Class interpreter : Type := {
  check_bracketed_netloc : string → bool;
  checknetloc : string → bool;
  int_max_str_digits : nat
}.

(** The interpreter of the examples: the default limit, and no authority with
    brackets or beyond ASCII accepted (no example has one). *)
Definition default_interpreter : interpreter :=
  {| check_bracketed_netloc := λ _, false;
     checknetloc := λ _, false;
     int_max_str_digits := 4300 |}.

Section python.
Context `{py : interpreter}.

(** [int(s)] on a non-empty string of decimal digits: [ValueError] when the
    digits are more than the limit, which is looked at above 640 digits. *)
Definition py_int (s : string) : res Z :=
  let n := String.length s in
  if (640 <? n)%nat && (0 <? int_max_str_digits)%nat && (int_max_str_digits <? n)%nat
  then Raised
  else Ok (int_of_digits s).

(** ** [urllib.parse.urlparse(url).path]

    The standard library's [urlsplit] followed by the parameter split of
    [urlparse], as far as the [path] component needs it: leading C0 controls
    and spaces are stripped, TAB, CR and LF removed, a scheme and an authority
    split off, then the fragment, the query and the parameters.  An authority
    raises [ValueError] when one of its brackets is unmatched or when it fails
    a check of the interpreter. *)

Definition is_c0_or_space (c : ascii) : bool := (code c <=? 32)%nat.

Definition is_unsafe_url_byte (c : ascii) : bool :=
  (code c =? 9)%nat || (code c =? 10)%nat || (code c =? 13)%nat.

Definition is_scheme_char (c : ascii) : bool :=
  is_alpha c || is_digit c
  || bool_decide (c = "+"%char) || bool_decide (c = "-"%char) || bool_decide (c = "."%char).

Definition uses_params : list string :=
  [EmptyString; "ftp"; "hdl"; "prospero"; "http"; "imap"; "https"; "shttp";
   "rtsp"; "rtspu"; "sip"; "sips"; "mms"; "sftp"; "tel"].

(** The scheme (lower-cased, empty when there is none) and what follows it. *)
Definition split_scheme (url : string) : string * string :=
  match url, after ":" url with
  | String c0 _, Some rest =>
      let sch := before ":" url in
      if negb (is_empty sch) && is_alpha c0 && str_forall is_scheme_char sch
      then (lower sch, rest)
      else (EmptyString, url)
  | _, _ => (EmptyString, url)
  end.

Definition is_netloc_delim (c : ascii) : bool :=
  bool_decide (c = "/"%char) || bool_decide (c = "?"%char) || bool_decide (c = "#"%char).

(** [_splitnetloc(url, 2)] on a [url] that starts with two slashes, given
    without them: the authority and the rest. *)
Fixpoint splitnetloc (s : string) : string * string :=
  match s with
  | EmptyString => (EmptyString, EmptyString)
  | String c t =>
      if is_netloc_delim c then (EmptyString, s)
      else let '(n, r) := splitnetloc t in (String c n, r)
  end.

(** [_splitparams(url)[0]]: the path cut at the first semicolon of its last
    segment. *)
Fixpoint cut_params (s : string) : string :=
  match s with
  | EmptyString => EmptyString
  | String c t =>
      if has_char "/" t then String c (cut_params t)
      else if decide (c = "/"%char) then String c (before ";" t)
      else before ";" s
  end.

Definition urlparse_path (url : string) : res string :=
  let url := lstrip is_c0_or_space url in
  let url := str_filter (λ c, negb (is_unsafe_url_byte c)) url in
  let '(scheme, url) := split_scheme url in
  url ←r (match url with
          | String "/" (String "/" rest) =>
              let '(netloc, rest') := splitnetloc rest in
              if xorb (has_char "[" netloc) (has_char "]" netloc) then Raised
              else if has_char "[" netloc && negb (check_bracketed_netloc netloc)
              then Raised
              else if negb (isascii netloc) && negb (checknetloc netloc) then Raised
              else Ok rest'
          | _ => Ok url
          end);
  let url := before "#" url in
  let url := before "?" url in
  Ok (if bool_decide (scheme ∈ uses_params) && has_char ";" url
      then cut_params url else url).

(** ** [wd_utils]: slugs *)

(** [safe_slug_from_href(href)] *)
Definition safe_slug_from_href (href : string) : res (option string) :=
  if is_empty href then Ok None
  else
    parsed_path ←r urlparse_path href;
    let path := if negb (is_empty parsed_path) then parsed_path else href in
    let path := strip is_slash path in
    if is_empty path then Ok None
    else
      let parts := split "/" path in
      match parts with
      | p0 :: p1 :: _ =>
          if bool_decide (lower p0 = "dating") then Ok (Some p1)
          else Ok (last parts)
      | _ => Ok (last parts)
      end.

(** [is_individual_slug(slug)] *)
Definition is_individual_slug (slug : string) : bool :=
  if is_empty slug then false
  else
    let s := lower slug in
    if contains "-and-" s then false
    else if startswith "and-" s || endswith "-and" s then false
    else if contains "couple" s then false
    else true.

(** ** [wd_utils]: parsers

    What the selector queries of the parsers find in a page:
    - [age_fact]: the stripped text of [.ff-fact-box.small.age .fact];
    - [rel_fact]: the stripped text of [.ff-fact-box.small.relationships .fact];
    - [about]: the text of [p.ff-auto-about];
    - [history_hrefs]: the [href] values of the links inside the dating-history
      container, in page order ([None] when none of the three container
      look-ups finds one);
    - [listing_hrefs]: the [href] values of the links of a letter page. *)
Record soup : Type := {
  age_fact : option string;
  rel_fact : option string;
  about : option string;
  history_hrefs : option (list string);
  listing_hrefs : list string
}.

Record facts : Type := {
  age : option Z;
  relationships_total : option Z
}.

(** The [age] entry of [parse_facts_block] (lines 129-138). *)
Definition parse_age (box : option string) : res (option Z) :=
  match box with
  | None => Ok None
  | Some text =>
      if isdigit text then n ←r py_int text; Ok (Some n)
      else match search_digits text with
           | Some m => n ←r py_int m; Ok (Some n)
           | None => Ok None
           end
  end.

(** The [relationships_total] entry of [parse_facts_block] (lines 140-145). *)
Definition parse_relationships_total (box : option string) : res (option Z) :=
  match box with
  | None => Ok None
  | Some text =>
      match search_digits text with
      | Some m => n ←r py_int m; Ok (Some n)
      | None => Ok None
      end
  end.

(** [parse_facts_block(soup)] *)
Definition parse_facts_block (sp : soup) : res facts :=
  a ←r parse_age (age_fact sp);
  r ←r parse_relationships_total (rel_fact sp);
  Ok {| age := a; relationships_total := r |}.

Inductive gender : Type := male | female | unknown.

(** [infer_gender_from_about(soup)] *)
Definition infer_gender_from_about (sp : soup) : gender :=
  match about sp with
  | None => unknown
  | Some raw =>
      let text := lower raw in
      if search_word "she" text || search_word "her" text then female
      else if search_word "he" text || search_word "his" text then male
      else if search_word "actress" text then female
      else if search_word "actor" text && negb (search_word "actress" text) then male
      else unknown
  end.

(** The first loop of [parse_partners_from_history]: the slugs of the links
    that resolve to a non-empty individual slug. *)
Fixpoint history_slugs (hrefs : list string) : res (list string) :=
  match hrefs with
  | [] => Ok []
  | h :: hs =>
      slug ←r safe_slug_from_href (strip is_space h);
      rest ←r history_slugs hs;
      match slug with
      | Some s =>
          if is_empty s then Ok rest
          else if negb (is_individual_slug s) then Ok rest
          else Ok (s :: rest)
      | None => Ok rest
      end
  end.

(** Its second loop: first occurrences only, in order. *)
Fixpoint unique_from (seen : gset string) (ps : list string) : list string :=
  match ps with
  | [] => []
  | p :: t =>
      if decide (p ∉ seen) then p :: unique_from (seen ∪ {[p]}) t
      else unique_from seen t
  end.

(** [parse_partners_from_history(soup)] *)
Definition parse_partners_from_history (sp : soup) : res (list string) :=
  match history_hrefs sp with
  | None => Ok []
  | Some hrefs =>
      partners ←r history_slugs hrefs;
      Ok (unique_from ∅ partners)
  end.

(** ** Effects: the network and the rate limit *)

(** What the scripts do to the outside world, in the order they do it:
    [EFetch what ok] is one call of [fetch_soup] (for the profile of slug
    [what], or for the listing page of letter [what]) and whether it returned;
    [ESleep] is one call of [sleep_rate_limit]. *)
Inductive event : Type :=
| EFetch (what : string) (ok : bool)
| ESleep.

(** The outcome of [fetch_soup] on the page of a slug (or letter), which may
    depend on everything that happened before; [None] when it raises. *)
Definition fetcher : Type := list event → string → option soup.

(** ** [snowball_collector.find_dating_links_bfs] *)

Record bfs_state : Type := {
  queue : list string;
  visited : gset string;
  collected : list string;
  trace : list event
}.

(** The state before the loop (lines 32-34). *)
Definition bfs_init (start_slug : string) : bfs_state :=
  {| queue := [start_slug]; visited := ∅; collected := []; trace := [] |}.

(** [while queue and len(collected) < target_num] *)
Definition loop_cond (target_num : Z) (st : bfs_state) : bool :=
  negb (bool_decide (queue st = [])) && (Z.of_nat (length (collected st)) <? target_num).

(** Lines 57-59: each partner is appended unless it is visited, queued (the
    queue as it is by then) or collected. *)
Definition enqueue (vis : gset string) (coll : list string)
    (q : list string) (partners : list string) : list string :=
  fold_left
    (λ q p, if decide ((p ∉ vis) ∧ (p ∉ q) ∧ (p ∉ coll)) then q ++ [p] else q)
    partners q.

(** How one pass through the loop body ends: at its end or at a [continue]
    ([Next]), at the [break] ([Break]), or with an exception ([Crash]). *)
Inductive step_result : Type :=
| Next (st : bfs_state)
| Break (st : bfs_state)
| Crash.

(** The loop body (lines 39-66). *)
Definition loop_body (fetch : fetcher) (target_num : Z) (st : bfs_state) : step_result :=
  match queue st with
  | [] => Crash
  | current :: rest =>
      if decide (current ∈ visited st) then
        Next {| queue := rest; visited := visited st;
                collected := collected st; trace := trace st |}
      else
        let visited' := visited st ∪ {[current]} in
        match fetch (trace st) current with
        | None =>
            Next {| queue := rest; visited := visited';
                    collected := collected st;
                    trace := trace st ++ [EFetch current false] |}
        | Some sp =>
            match parse_partners_from_history sp with
            | Raised => Crash
            | Ok partners =>
                let collected' :=
                  if decide (current ∉ collected st) then collected st ++ [current]
                  else collected st in
                let queue' := enqueue visited' collected' rest partners in
                let st' := {| queue := queue'; visited := visited';
                              collected := collected';
                              trace := trace st ++ [EFetch current true; ESleep] |} in
                if bool_decide (queue' = [])
                   && (Z.of_nat (length collected') <? target_num)
                then Break st' else Next st'
            end
        end
  end.

(** The loop, with a bound [fuel] on the number of passes: [None] when the
    bound is reached before the loop ends. *)
Fixpoint bfs_loop (fetch : fetcher) (target_num : Z) (fuel : nat) (st : bfs_state)
    : option (res bfs_state) :=
  if loop_cond target_num st then
    match fuel with
    | O => None
    | S fuel' =>
        match loop_body fetch target_num st with
        | Next st' => bfs_loop fetch target_num fuel' st'
        | Break st' => Some (Ok st')
        | Crash => Some Raised
        end
    end
  else Some (Ok st).

(** [find_dating_links_bfs(start_slug, target_num)] *)
Definition find_dating_links_bfs (fetch : fetcher) (start_slug : string)
    (target_num : Z) (fuel : nat) : option (res (list string)) :=
  match bfs_loop fetch target_num fuel (bfs_init start_slug) with
  | None => None
  | Some Raised => Some Raised
  | Some (Ok st) => Some (Ok (slice_to (collected st) target_num))
  end.

(** The states the loop passes through, one per pass. *)
Inductive bfs_reach (fetch : fetcher) (target_num : Z) (start_slug : string)
    : bfs_state → Prop :=
| reach_init : bfs_reach fetch target_num start_slug (bfs_init start_slug)
| reach_next st st' :
    bfs_reach fetch target_num start_slug st →
    loop_cond target_num st = true →
    loop_body fetch target_num st = Next st' →
    bfs_reach fetch target_num start_slug st'
| reach_break st st' :
    bfs_reach fetch target_num start_slug st →
    loop_cond target_num st = true →
    loop_body fetch target_num st = Break st' →
    bfs_reach fetch target_num start_slug st'.

(** ** [wd_utils.fetch_profile] and [wd_utils.write_profiles] *)

(** The fields of a written record that come from the parsers above; its
    [slug], [url], [name] and [profile_table] are not modelled. *)
Record item : Type := {
  item_age : option Z;
  item_relationships_total : option Z;
  item_gender_inferred : gender;
  item_partners : list string
}.

(** [fetch_profile(slug)]: the record, [None] when the fetch fails, and the
    events of the call. *)
Definition fetch_profile (fetch : fetcher) (tr : list event) (slug : string)
    : res (option item) * list event :=
  match fetch tr slug with
  | None => (Ok None, tr ++ [EFetch slug false])
  | Some sp =>
      let r :=
        fs ←r parse_facts_block sp;
        let g := infer_gender_from_about sp in
        partners ←r parse_partners_from_history sp;
        Ok (Some {| item_age := age fs;
                    item_relationships_total := relationships_total fs;
                    item_gender_inferred := g;
                    item_partners := partners |}) in
      (r, tr ++ [EFetch slug true])
  end.

Record writer_state : Type := {
  fh : list item;
  written : Z;
  wtrace : list event
}.

(** The loop of [write_profiles] (lines 271-278). *)
Fixpoint write_loop (fetch : fetcher) (slugs : list string) (st : writer_state)
    : res writer_state :=
  match slugs with
  | [] => Ok st
  | slug :: slugs' =>
      let '(r, tr) := fetch_profile fetch (wtrace st) slug in
      match r with
      | Raised => Raised
      | Ok None =>
          write_loop fetch slugs' {| fh := fh st; written := written st; wtrace := tr |}
      | Ok (Some it) =>
          write_loop fetch slugs'
            {| fh := fh st ++ [it]; written := written st + 1;
               wtrace := tr ++ [ESleep] |}
      end
  end.

(** [write_profiles(slugs, outpath, append)]: [file] is what [outpath] holds
    before the call, [tr] the events before it. *)
Definition write_profiles (fetch : fetcher) (slugs : list string)
    (file : list item) (append : bool) (tr : list event) : res writer_state :=
  write_loop fetch slugs
    {| fh := if append then file else []; written := 0; wtrace := tr |}.

(** ** [alphabet_collector.fetch_letter_slugs] *)

(** The loop over the anchors (lines 47-59): the slugs kept and the set of
    seen slugs, which the caller shares between letters. *)
Fixpoint letter_loop (count : Z) (anchors : list string)
    (slugs : list string) (seen : gset string) : res (list string * gset string) :=
  match anchors with
  | [] => Ok (slugs, seen)
  | href :: anchors' =>
      slug ←r safe_slug_from_href href;
      match slug with
      | None => letter_loop count anchors' slugs seen
      | Some s =>
          if is_empty s then letter_loop count anchors' slugs seen
          else if negb (is_individual_slug s) then letter_loop count anchors' slugs seen
          else if decide (s ∈ seen) then letter_loop count anchors' slugs seen
          else
            let slugs' := slugs ++ [s] in
            let seen' := seen ∪ {[s]} in
            if Z.of_nat (length slugs') >=? count then Ok (slugs', seen')
            else letter_loop count anchors' slugs' seen'
      end
  end.

(** [fetch_letter_slugs(letter, count, seen_slugs)]: the slugs returned, the
    set of seen slugs afterwards, and the events. *)
Definition fetch_letter_slugs (fetch : fetcher) (letter : string) (count : Z)
    (seen_slugs : gset string) (tr : list event)
    : res (list string * gset string) * list event :=
  match fetch tr letter with
  | None => (Ok ([], seen_slugs), tr ++ [EFetch letter false])
  | Some sp =>
      match letter_loop count (listing_hrefs sp) [] seen_slugs with
      | Raised => (Raised, tr ++ [EFetch letter true])
      | Ok r => (Ok r, tr ++ [EFetch letter true; ESleep])
      end
  end.

(** * More of the scripts *)

(** ** [alphabet_collector.main] *)

(** [letters]: "a" to "z". *)
Definition letters : list string :=
  ["a"; "b"; "c"; "d"; "e"; "f"; "g"; "h"; "i"; "j"; "k"; "l"; "m";
   "n"; "o"; "p"; "q"; "r"; "s"; "t"; "u"; "v"; "w"; "x"; "y"; "z"].

(** The loop over the letters (lines 91-94); the set [seen] is the one object
    that every call of [fetch_letter_slugs] updates. *)
Fixpoint collect_letters (fetch : fetcher) (ls : list string) (n : Z)
    (all_slugs : list string) (seen : gset string) (tr : list event)
    : res (list string * gset string) * list event :=
  match ls with
  | [] => (Ok (all_slugs, seen), tr)
  | letter :: ls' =>
      match fetch_letter_slugs fetch letter n seen tr with
      | (Raised, tr') => (Raised, tr')
      | (Ok (slugs, seen'), tr') =>
          collect_letters fetch ls' n (all_slugs ++ slugs) seen' tr'
      end
  end.

(** How a script ends: with an argument error before anything is fetched,
    normally, with the output file and the events, or with an exception. *)
Inductive main_result : Type :=
| ArgumentError
| Finished (file : list item) (tr : list event)
| Failed.

(** [alphabet_collector.main] with [number_per_letter = n]; [file] is what the
    output path holds before the run. *)
Definition alphabet_main (fetch : fetcher) (n : Z) (file : list item) : main_result :=
  if n <=? 0 then ArgumentError
  else
    match collect_letters fetch letters n [] ∅ [] with
    | (Raised, _) => Failed
    | (Ok (all_slugs, _), tr) =>
        if bool_decide (all_slugs = []) then Finished file tr
        else match write_profiles fetch all_slugs file false tr with
             | Raised => Failed
             | Ok st => Finished (fh st) (wtrace st)
             end
    end.

(** ** [snowball_collector.main] *)

(** [s.replace(a, b)] for single characters. *)
Fixpoint replace_char (a b : ascii) (s : string) : string :=
  match s with
  | EmptyString => EmptyString
  | String c t => String (if decide (c = a) then b else c) (replace_char a b t)
  end.

(** [args.start_slug.strip().lower().replace(" ", "-")] *)
Definition normalize_start_slug (s : string) : string :=
  replace_char " " "-" (lower (strip is_space s)).

(** [snowball_collector.main]: the traversal, then the profiles of the slugs
    it returns, appended to the output file. *)
Definition snowball_main (fetch : fetcher) (start_slug : string) (target_num : Z)
    (file : list item) (fuel : nat) : option main_result :=
  match bfs_loop fetch target_num fuel (bfs_init (normalize_start_slug start_slug)) with
  | None => None
  | Some Raised => Some Failed
  | Some (Ok st) =>
      let slugs := slice_to (collected st) target_num in
      match write_profiles fetch slugs file true (trace st) with
      | Raised => Some Failed
      | Ok wst => Some (Finished (fh wst) (wtrace wst))
      end
  end.

(** ** [wd_utils.parse_name_and_slug] *)

(** What [parse_name_and_slug] reads in the page: the stripped text of the
    first [h1], the text of the [title] tag, and the stripped text of the first
    element of class [ff-title]; [None] where there is no such element. *)
Record name_parts : Type := {
  h1_text : option string;
  title_text : option string;
  title_class_text : option string
}.

Definition upper_char (c : ascii) : ascii :=
  if is_lower c then ascii_of_nat (code c - 32) else c.

(** [s.title()]: a letter that follows a letter is lower-cased, any other
    letter upper-cased. *)
Fixpoint title_from (prev_cased : bool) (s : string) : string :=
  match s with
  | EmptyString => EmptyString
  | String c t =>
      if is_lower c then
        String (if prev_cased then c else upper_char c) (title_from true t)
      else if is_upper c then
        String (if prev_cased then lower_char c else c) (title_from true t)
      else String c (title_from false t)
  end.

Definition title (s : string) : string := title_from false s.

(** The rest of [s] after the prefix [p], matched without regard to case. *)
Fixpoint drop_prefix_ci (p s : string) : option string :=
  match p, s with
  | EmptyString, _ => Some s
  | String _ _, EmptyString => None
  | String a p', String b s' =>
      if decide (lower_char a = lower_char b) then drop_prefix_ci p' s' else None
  end.

Definition newline : ascii := ascii_of_nat 10.

(** A match of [\s*-\s*Who's Dated Who.*$] (ignoring case) at the start of
    [s]: what is left of [s] after it, the empty string or a final newline.
    The dot does not match a newline, and [$] matches at the end of the text
    or before a newline that ends it. *)
Definition site_suffix_at (s : string) : option string :=
  match lstrip is_space s with
  | String "-" s2 =>
      match drop_prefix_ci "Who's Dated Who" (lstrip is_space s2) with
      | Some s4 =>
          match after newline s4 with
          | None => Some EmptyString
          | Some EmptyString => Some (String newline EmptyString)
          | Some (String _ _) => None
          end
      | None => None
      end
  | _ => None
  end.

(** [re.sub(r"\s*-\s*Who's Dated Who.*$", "", t, flags=re.I)]: the leftmost
    match is removed. *)
Fixpoint strip_site_suffix (t : string) : string :=
  match site_suffix_at t with
  | Some rest => rest
  | None =>
      match t with
      | EmptyString => EmptyString
      | String c t' => String c (strip_site_suffix t')
      end
  end.

(** [not name] *)
Definition falsy (name : option string) : bool :=
  match name with
  | None => true
  | Some s => is_empty s
  end.

(** [parse_name_and_slug(soup, url)] *)
Definition parse_name_and_slug (np : name_parts) (url : string)
    : res (option string * option string) :=
  let name : option string := None in
  let name :=
    match h1_text np with
    | Some t => if negb (is_empty t) then Some t else name
    | None => name
    end in
  let name :=
    if falsy name then
      match title_text np with
      | Some t => Some (strip is_space (strip_site_suffix t))
      | None => name
      end
    else name in
  let name :=
    if falsy name then
      match title_class_text np with
      | Some t => Some t
      | None => name
      end
    else name in
  name ←r (if falsy name then
             slug ←r safe_slug_from_href url;
             match slug with
             | Some s =>
                 if negb (is_empty s) then Ok (Some (title (replace_char "-" " " s)))
                 else Ok (Some "unknown")
             | None => Ok (Some "unknown")
             end
           else Ok name);
  slug ←r safe_slug_from_href url;
  Ok (name, slug).

(** ** [wd_utils.parse_profile_table] *)

(** A cell of a table row, by the two texts the parser takes from it:
    [get_text(strip=True)] and [get_text(" ", strip=True)]. *)
Record cell : Type := {
  cell_text : string;
  cell_text_spaced : string
}.

(** A table of the page: whether some string in it matches [First Name]
    (ignoring case), and the cells ([td] and [th]) of its rows. *)
Record table : Type := {
  has_first_name : bool;
  rows : list (list cell)
}.

(** The loop over the rows (lines 117-123). *)
Definition add_row (data : gmap string string) (tds : list cell) : gmap string string :=
  match tds with
  | c0 :: c1 :: _ =>
      let key := cell_text c0 in
      let val := cell_text_spaced c1 in
      if negb (is_empty key) then <[key := val]> data else data
  | _ => data
  end.

(** [parse_profile_table(soup)], from the tables of the page in page order. *)
Definition parse_profile_table (tables : list table) : gmap string string :=
  match find (λ t, has_first_name t) tables with
  | None => ∅
  | Some t => fold_left add_row (rows t) ∅
  end.

(** ** [compare_samples]: reading the records back

    The values of the fields the comparison reads are [None] (JSON null),
    integers and strings; booleans and floats, and with them the branch of
    [extract_age] for floats and the mean, median and deviation of
    [analyze_records], are not modelled. *)
Inductive pyval : Type :=
| PNone
| PInt (n : Z)
| PStr (s : string).

(** [str(v)] *)
Definition py_str (v : pyval) : string :=
  match v with
  | PNone => "None"
  | PInt n => pretty n
  | PStr s => s
  end.

(** The truth value of [v] *)
Definition truthy (v : pyval) : bool :=
  match v with
  | PNone => false
  | PInt n => negb (n =? 0)
  | PStr s => negb (is_empty s)
  end.

(** [a or b] *)
Definition py_or (a b : pyval) : pyval := if truthy a then a else b.

(** [normalize_gender(g)] *)
Definition normalize_gender (g : pyval) : string :=
  match g with
  | PNone => "unknown"
  | _ =>
      let s := lower (strip is_space (py_str g)) in
      if bool_decide (s ∈ ["male"; "m"; "man"]) then "male"
      else if bool_decide (s ∈ ["female"; "f"; "woman"; "girl"]) then "female"
      else if bool_decide (s ∈ ["unknown"; "n/a"; EmptyString]) then "unknown"
      else if search_word "she" s || search_word "her" s
              || search_word "woman" s || search_word "female" s then "female"
      else if search_word "he" s || search_word "his" s || search_word "him" s
              || search_word "man" s || search_word "male" s then "male"
      else "unknown"
  end.

(** At most [n] leading digits. *)
Fixpoint take_digits_upto (n : nat) (s : string) : string :=
  match n, s with
  | S n', String c t => if is_digit c then String c (take_digits_upto n' t) else EmptyString
  | _, _ => EmptyString
  end.

(** [re.search(r"(\d{1,3})", s)]: the first digit and up to two digits that
    follow it. *)
Fixpoint search_digits3 (s : string) : option string :=
  match s with
  | EmptyString => None
  | String c t =>
      if is_digit c then Some (String c (take_digits_upto 2 t)) else search_digits3 t
  end.

(** [extract_age(val)]; the conversion of line 81 is outside the [try], and
    the one inside it is of three digits at most. *)
Definition extract_age (val : pyval) : res (option Z) :=
  match val with
  | PNone => Ok None
  | PInt n => Ok (Some n)
  | PStr _ =>
      let s := strip is_space (py_str val) in
      if is_empty s then Ok None
      else if isdigit s then n ←r py_int s; Ok (Some n)
      else match search_digits3 s with
           | Some m =>
               match py_int m with
               | Ok n => Ok (Some n)
               | Raised => Ok None
               end
           | None => Ok None
           end
  end.

(** A record of a sample, by the keys [analyze_records] reads; [None] is a
    missing key, and the profile table is a dictionary when present. *)
Record sample_record : Type := {
  rec_gender_inferred : option pyval;
  rec_gender : option pyval;
  rec_sex : option pyval;
  rec_age : option pyval;
  rec_profile_table : option (gmap string pyval)
}.

(** The gender field of a record: the value of the first key present among
    [gender_inferred], [gender] and [sex]. *)
Definition record_gender (r : sample_record) : pyval :=
  match rec_gender_inferred r with
  | Some v => v
  | None =>
      match rec_gender r with
      | Some v => v
      | None => default PNone (rec_sex r)
      end
  end.

(** [d.get(k)] *)
Definition dict_get (d : gmap string pyval) (k : string) : pyval :=
  default PNone (d !! k).

(** The body of the loop of [analyze_records] (lines 100-121) on the counter
    of genders and the list of ages. *)
Definition analyze_step (acc : gmap string nat * list Z) (r : sample_record)
    : res (gmap string nat * list Z) :=
  let '(genders, ages) := acc in
  let label := normalize_gender (record_gender r) in
  let genders := <[label := S (default O (genders !! label))]> genders in
  let raw_age := default PNone (rec_age r) in
  age ←r extract_age raw_age;
  match age with
  | None =>
      let pt := default ∅ (rec_profile_table r) in
      let bday := py_or (py_or (dict_get pt "Birthday") (dict_get pt "Birth Date"))
                        (dict_get pt "Born") in
      maybe_age ←r extract_age bday;
      match maybe_age with
      | Some maybe_age =>
          if (0 <? maybe_age) && (maybe_age <? 120)
          then Ok (genders, ages ++ [maybe_age]) else Ok (genders, ages)
      | None => Ok (genders, ages)
      end
  | Some age => Ok (genders, ages ++ [age])
  end.

(** The counts of [analyze_records]. *)
Record stats : Type := {
  total : nat;
  gender_counts : gmap string nat;
  n_with_age : nat;
  ages : list Z
}.

(** The loop of [analyze_records] (lines 99-121). *)
Fixpoint analyze_loop (records : list sample_record) (acc : gmap string nat * list Z)
    : res (gmap string nat * list Z) :=
  match records with
  | [] => Ok acc
  | r :: records' => acc' ←r analyze_step acc r; analyze_loop records' acc'
  end.

(** [analyze_records(records)], its counts. *)
Definition analyze_records (records : list sample_record) : res stats :=
  acc ←r analyze_loop records (∅, []);
  Ok {| total := length records; gender_counts := acc.1;
        n_with_age := length acc.2; ages := acc.2 |}.

(** * Vocabulary of the properties *)

(** ** Slugs *)

Definition has_prefix (p s : string) : Prop := ∃ b, s = p +:+ b.
Definition has_suffix (p s : string) : Prop := ∃ a, s = a +:+ p.
Definition has_infix (sub s : string) : Prop := ∃ a b, s = a +:+ sub +:+ b.

(** The pairing markers of a slug, as the specification lists them. *)
Definition pairing_marker (s : string) : Prop :=
  has_infix "-and-" s ∨ has_prefix "and-" s ∨ has_suffix "-and" s
  ∨ has_infix "couple" s.

(** ** Words of the about text *)

(** A text of ASCII characters, on which the string functions of the model
    are those of Python. *)
Definition ascii_text (s : string) : Prop := isascii s = true.

(** [a] does not end, and [b] does not start, with a word character. *)
Definition ends_nonword (a : string) : Prop :=
  ∀ a' c, a = a' +:+ String c EmptyString → is_word_char c = false.
Definition starts_nonword (b : string) : Prop :=
  ∀ c b', b = String c b' → is_word_char c = false.

(** [w] occurs in [s] as a whole word. *)
Definition has_word (w s : string) : Prop :=
  ∃ a b, s = a +:+ w +:+ b ∧ ends_nonword a ∧ starts_nonword b.

(** The rules of gender inference as the specification words them, on the
    about text: the occupation rules each require the other word absent. *)
Definition spec_gender_rules (raw : string) : gender :=
  let text := lower raw in
  if search_word "she" text || search_word "her" text then female
  else if search_word "he" text || search_word "his" text then male
  else if search_word "actress" text && negb (search_word "actor" text) then female
  else if search_word "actor" text && negb (search_word "actress" text) then male
  else unknown.

Definition about_page (raw : string) : soup :=
  {| age_fact := None; rel_fact := None; about := Some raw;
     history_hrefs := None; listing_hrefs := [] |}.

(** ** Digits of a fact widget *)

Definition no_digit (s : string) : Prop :=
  str_forall (λ c, negb (is_digit c)) s = true.
Definition starts_nondigit (b : string) : Prop :=
  ∀ c b', b = String c b' → is_digit c = false.

(** [s[:n]] *)
Fixpoint str_take (n : nat) (s : string) : string :=
  match n, s with
  | S n', String c t => String c (str_take n' t)
  | _, _ => EmptyString
  end.

(** [m] has more digits than [int] converts. *)
Definition over_int_limit (m : string) : Prop :=
  (640 < String.length m)%nat ∧ (0 < int_max_str_digits)%nat
  ∧ (int_max_str_digits < String.length m)%nat.

(** [m] is the first maximal run of digits of [text]. *)
Definition first_digit_run (text m : string) : Prop :=
  ∃ pre post, text = pre +:+ m +:+ post
              ∧ no_digit pre ∧ isdigit m = true ∧ starts_nondigit post.

Definition age_page (text : string) : soup :=
  {| age_fact := Some text; rel_fact := None; about := None;
     history_hrefs := None; listing_hrefs := [] |}.

(** Age extraction as the specification words it: the integer of the leading
    digits of the widget text, absent when there are none. *)
Definition spec_age_leading_digits (box : option string) : option Z :=
  match box with
  | None => None
  | Some text =>
      let ds := take_digits text in
      if is_empty ds then None else Some (int_of_digits ds)
  end.

(** ** Traces *)

(** The claim about the rate limit, on a trace: a sleep right after every
    fetch. *)
Definition delay_after_every_fetch (tr : list event) : Prop :=
  ∀ i what ok, tr !! i = Some (EFetch what ok) → tr !! S i = Some ESleep.

(** What the code does: a sleep right after every fetch that succeeds, none
    right after a fetch that fails. *)
Definition delay_after_successful_fetch (tr : list event) : Prop :=
  ∀ i what, tr !! i = Some (EFetch what true) → tr !! S i = Some ESleep.
Definition no_delay_after_failed_fetch (tr : list event) : Prop :=
  ∀ i what, tr !! i = Some (EFetch what false) → tr !! S i ≠ Some ESleep.

(** Traces made of successful fetches each followed by a sleep, and of failed
    fetches. *)
Inductive polite : list event → Prop :=
| polite_nil : polite []
| polite_ok what tr : polite tr → polite (EFetch what true :: ESleep :: tr)
| polite_fail what tr : polite tr → polite (EFetch what false :: tr).

(** ** The traversal: passes and the loop invariant *)

Definition state_after (r : step_result) : option bfs_state :=
  match r with
  | Next st | Break st => Some st
  | Crash => None
  end.

(** The three ways a pass ends in a state: the dequeued slug was visited
    already, its fetch failed, or its page was fetched and parsed. *)
Inductive pass (fetch : fetcher) (st : bfs_state) : bfs_state → Prop :=
| pass_skip current rest :
    queue st = current :: rest → current ∈ visited st →
    pass fetch st {| queue := rest; visited := visited st;
                     collected := collected st; trace := trace st |}
| pass_fail current rest :
    queue st = current :: rest → current ∉ visited st →
    fetch (trace st) current = None →
    pass fetch st {| queue := rest; visited := visited st ∪ {[current]};
                     collected := collected st;
                     trace := trace st ++ [EFetch current false] |}
| pass_ok current rest sp partners :
    queue st = current :: rest → current ∉ visited st →
    fetch (trace st) current = Some sp →
    parse_partners_from_history sp = Ok partners →
    let collected' := if decide (current ∉ collected st)
                      then collected st ++ [current] else collected st in
    pass fetch st {| queue := enqueue (visited st ∪ {[current]}) collected' rest partners;
                     visited := visited st ∪ {[current]};
                     collected := collected';
                     trace := trace st ++ [EFetch current true; ESleep] |}.

(** The invariant of the loop, for every fetch behaviour. *)
Record bfs_inv (st : bfs_state) : Prop := {
  inv_queue_nodup : NoDup (queue st);
  inv_queue_unvisited : ∀ x, x ∈ queue st → x ∉ visited st;
  inv_collected_nodup : NoDup (collected st);
  inv_collected_visited : ∀ x, x ∈ collected st → x ∈ visited st;
  inv_trace : polite (trace st)
}.

(** ** The scenario of the specification

    Seed "a" with partners "b" and "c", "b" with partners "c" and "d", "c"
    with none, and "d" whose fetch fails. *)

Definition links_page (slugs : list string) : soup :=
  {| age_fact := None; rel_fact := None; about := None;
     history_hrefs := Some ((λ s, "/dating/" +:+ s) <$> slugs);
     listing_hrefs := [] |}.

Definition scenario : fetcher := λ _ slug,
  if decide (slug = "a") then Some (links_page ["b"; "c"])
  else if decide (slug = "b") then Some (links_page ["c"; "d"])
  else if decide (slug = "c") then Some (links_page [])
  else None.

(** ** The relationship graph of a fixed set of pages *)

(** The links of the dating history of a page are ASCII text. *)
Definition ascii_links (sp : soup) : Prop :=
  match history_hrefs sp with
  | Some hrefs => Forall ascii_text hrefs
  | None => True
  end.

(** [v] is a partner found on the page of [u]. *)
Definition edge (g : string → option soup) (u v : string) : Prop :=
  ∃ sp partners, g u = Some sp
                 ∧ parse_partners_from_history sp = Ok partners ∧ v ∈ partners.

(** The page of [v] fetches and parses. *)
Definition page_ok (g : string → option soup) (v : string) : Prop :=
  ∃ sp partners, g v = Some sp ∧ parse_partners_from_history sp = Ok partners.

(** [v] is reached from the seed by a path of [n] edges. *)
Inductive reach_in (g : string → option soup) (seed : string) : nat → string → Prop :=
| reach_O : reach_in g seed O seed
| reach_S n u v : reach_in g seed n u → edge g u v → reach_in g seed (S n) v.

Definition reachable (g : string → option soup) (seed v : string) : Prop :=
  ∃ n, reach_in g seed n v.

(** [d] is the breadth-first distance of [v] from the seed. *)
Definition is_dist (g : string → option soup) (seed v : string) (d : nat) : Prop :=
  reach_in g seed d v ∧ ∀ k, reach_in g seed k v → (d ≤ k)%nat.

(** A sequence in non-decreasing distance from the seed. *)
Definition dist_sorted (g : string → option soup) (seed : string)
    (l : list string) : Prop :=
  ∀ i j a b da db, (i ≤ j)%nat → l !! i = Some a → l !! j = Some b →
                   is_dist g seed a da → is_dist g seed b db → (da ≤ db)%nat.

(** The slugs discovered so far, in the order of their discovery. *)
Definition discovered (st : bfs_state) : list string := collected st ++ queue st.

(** The invariant of the loop on a graph whose reachable pages all fetch and
    parse: the discovered slugs are in breadth-first order. *)
Record order_inv (g : string → option soup) (seed : string) (target_num : Z)
    (st : bfs_state) : Prop := {
  oi_inv : bfs_inv st;
  oi_visited : ∀ x, x ∈ visited st → x ∈ collected st;
  oi_seed : seed ∈ discovered st;
  oi_dist : ∀ x, x ∈ discovered st → ∃ d, is_dist g seed x d;
  oi_sorted : dist_sorted g seed (discovered st);
  oi_span : ∀ h rest b dh db,
      queue st = h :: rest → b ∈ rest →
      is_dist g seed h dh → is_dist g seed b db → (db ≤ S dh)%nat;
  oi_closed : ∀ x y, x ∈ collected st → edge g x y → y ∈ discovered st;
  oi_len : Z.of_nat (length (collected st)) ≤ Z.max 0 target_num
}.

(** A graph of three pages that all fetch and parse: "a" with partners "b"
    and "c", "b" with partner "c", "c" with none. *)
Definition three_pages : string → option soup := λ slug,
  if decide (slug = "a") then Some (links_page ["b"; "c"])
  else if decide (slug = "b") then Some (links_page ["c"])
  else if decide (slug = "c") then Some (links_page [])
  else None.

(** ** More on slugs, traces and counts *)

(** A slug the extractor keeps: not empty and an individual. *)
Definition kept_slug (s : string) : Prop :=
  is_empty s = false ∧ is_individual_slug s = true.

(** The slug a link contributes to a list of slugs: the non-empty individual
    slug its href resolves to, if it resolves to one. *)
Definition resolved_slug (href : string) : option string :=
  match safe_slug_from_href href with
  | Ok (Some s) => if negb (is_empty s) && is_individual_slug s then Some s else None
  | _ => None
  end.

(** The slugs fetched in a trace, and those fetched successfully, in order. *)
Definition fetched (tr : list event) : list string :=
  omap (λ e, match e with EFetch s _ => Some s | ESleep => None end) tr.
Definition fetched_ok (tr : list event) : list string :=
  omap (λ e, match e with EFetch s true => Some s | _ => None end) tr.

(** More of the loop invariant, for every fetch behaviour. *)
Record bfs_inv_more (start_slug : string) (target_num : Z) (st : bfs_state) : Prop := {
  im_inv : bfs_inv st;
  im_kept : ∀ x, x ∈ queue st ∨ x ∈ collected st → x = start_slug ∨ kept_slug x;
  im_fetched : ∀ x, x ∈ fetched (trace st) ↔ x ∈ visited st;
  im_fetched_nodup : NoDup (fetched (trace st));
  im_fetched_ok : fetched_ok (trace st) = collected st;
  im_len : Z.of_nat (length (collected st)) ≤ Z.max 0 target_num;
  im_seed : (collected st = [] ∧ (queue st = [] ∨ (queue st = [start_slug] ∧ visited st = ∅)))
            ∨ ∃ l, collected st = start_slug :: l
}.

(** The characters of a slug that survive a trip through a URL: no slash, no
    query, fragment or parameter delimiter, no TAB, LF or CR. *)
Definition is_slug_char (c : ascii) : bool :=
  negb (is_unsafe_url_byte c) && negb (is_netloc_delim c)
  && negb (bool_decide (c = ";"%char)).

(** A letter page with four links, one of them to a couple page and one a
    repetition. *)
Definition letter_page : soup :=
  {| age_fact := None; rel_fact := None; about := None; history_hrefs := None;
     listing_hrefs := ["/dating/amy-adams"; "/dating/amy-adams-and-darren-le-gallo";
                       "/dating/amy-adams"; "/dating/adam-driver"] |}.

(** A site with that letter page for "a", the profile of "amy-adams", and
    nothing else. *)
Definition alphabet_demo : fetcher := λ _ what,
  if decide (what = "a") then Some letter_page
  else if decide (what = "amy-adams") then Some (links_page [])
  else None.

(** The string a gender is written as in a record. *)
Definition gender_label (g : gender) : string :=
  match g with
  | male => "male"
  | female => "female"
  | unknown => "unknown"
  end.

(** The three labels of the comparison. *)
Definition gender_labels : list string := ["male"; "female"; "unknown"].

(** The birthday [analyze_records] falls back on: the first of the entries
    [Birthday], [Birth Date] and [Born] of the profile table that is not
    empty. *)
Definition record_birthday (r : sample_record) : pyval :=
  let pt := default ∅ (rec_profile_table r) in
  py_or (py_or (dict_get pt "Birthday") (dict_get pt "Birth Date")) (dict_get pt "Born").

(** The sum of the three counts of a gender counter. *)
Definition three_counts (genders : gmap string nat) : nat :=
  (default O (genders !! "male") + default O (genders !! "female")
   + default O (genders !! "unknown"))%nat.

(** * Properties *)

(** ** Strings: what the tests on slugs decide *)

Lemma app_empty_r (s : string) : s +:+ EmptyString = s.
Proof. induction s as [|c s IH]; simpl; [done | by rewrite IH]. Qed.

Lemma app_assoc_str (a b c : string) : (a +:+ b) +:+ c = a +:+ b +:+ c.
Proof. induction a as [|x a IH]; simpl; [done | by rewrite IH]. Qed.

Lemma startswith_spec (p s : string) : startswith p s = true ↔ has_prefix p s.
Proof.
  revert s. induction p as [|a p IH]; intros s; simpl.
  - split; [intros _; by exists s | done].
  - destruct s as [|b s].
    + split; [done | intros [t Ht]; discriminate].
    + case_decide as Hab.
      * subst b. rewrite IH. split.
        -- intros [t ->]. by exists t.
        -- intros [t Ht]. simpl in Ht. injection Ht as ->. by exists t.
      * split; [done | intros [t Ht]; simpl in Ht; congruence].
Qed.

Lemma contains_spec (sub s : string) : contains sub s = true ↔ has_infix sub s.
Proof.
  induction s as [|c s IH]; simpl.
  - destruct (startswith sub EmptyString) eqn:E.
    + split; [intros _ | done]. apply startswith_spec in E as [t Ht].
      exists EmptyString, t. done.
    + split; [done |]. intros (a & b & Hab).
      destruct a; simpl in Hab; [| discriminate].
      assert (startswith sub EmptyString = true) as E'
        by (apply startswith_spec; by exists b).
      congruence.
  - destruct (startswith sub (String c s)) eqn:E.
    + split; [intros _ | done]. apply startswith_spec in E as [t Ht].
      exists EmptyString, t. done.
    + rewrite IH. split.
      * intros (a & b & ->). by exists (String c a), b.
      * intros (a & b & Hab). destruct a as [|x a]; simpl in Hab.
        -- assert (startswith sub (String c s) = true) as E'
             by (apply startswith_spec; by exists b).
           congruence.
        -- injection Hab as -> ->. by exists a, b.
Qed.

Lemma endswith_spec (p s : string) : endswith p s = true ↔ has_suffix p s.
Proof.
  induction s as [|c s IH]; simpl.
  - case_decide as E.
    + subst p. split; [intros _; by exists EmptyString | done].
    + split; [done |]. intros [a Ha]. destruct a; simpl in Ha; [| discriminate].
      congruence.
  - case_decide as E.
    + subst p. split; [intros _; by exists EmptyString | done].
    + rewrite IH. split.
      * intros [a ->]. by exists (String c a).
      * intros [a Ha]. destruct a as [|x a]; simpl in Ha; [congruence |].
        injection Ha as -> ->. by exists a.
Qed.

Lemma pairing_marker_dec (s : string) :
  pairing_marker s ↔
  contains "-and-" s || startswith "and-" s || endswith "-and" s || contains "couple" s = true.
Proof.
  unfold pairing_marker.
  rewrite !orb_true_iff, !contains_spec, startswith_spec, endswith_spec. tauto.
Qed.

(** C7, as stated, fails: an identifier with none of the markers in it for
    which the classifier still answers false, because the markers are looked
    for in the lower-cased identifier. *)
Lemma C7_upper_case_counterexample :
  ¬ pairing_marker "Brad-AND-Angelina"
  ∧ is_individual_slug "Brad-AND-Angelina" = false.
Proof.
  split; [| reflexivity].
  rewrite pairing_marker_dec. vm_compute. discriminate.
Qed.

(** C7 (amended): [is_individual_slug] returns false exactly for the empty
    identifier and for the identifiers whose lower-cased form contains "-and-",
    starts with "and-", ends with "-and" or contains "couple"; it returns true
    for every other identifier.  "dylan-sprouse" is accepted,
    "ariana-grande-and-dalton-gomez" and "celebrity-couples" are rejected. *)
Theorem C7_is_individual_slug_lowercase (slug : string) :
  (is_individual_slug slug = false ↔ slug = EmptyString ∨ pairing_marker (lower slug))
  ∧ (is_individual_slug slug = true ↔ slug ≠ EmptyString ∧ ¬ pairing_marker (lower slug))
  ∧ is_individual_slug "dylan-sprouse" = true
  ∧ is_individual_slug "ariana-grande-and-dalton-gomez" = false
  ∧ is_individual_slug "celebrity-couples" = false.
Proof.
  assert (is_individual_slug slug = false
          ↔ slug = EmptyString ∨ pairing_marker (lower slug)) as Hfalse.
  { rewrite pairing_marker_dec. unfold is_individual_slug.
    destruct slug as [|c t]; simpl is_empty; cbv iota.
    - split; [by left | done].
    - set (s := lower (String c t)).
      destruct (contains "-and-" s), (startswith "and-" s), (endswith "-and" s),
        (contains "couple" s); simpl; split; try done; try (by right);
        intros [?|?]; done. }
  split; [exact Hfalse |]. split; [| by vm_compute].
  rewrite <- not_false_iff_true, Hfalse. split.
  - intros H. split; intros ?; apply H; tauto.
  - intros [H1 H2] [?|?]; tauto.
Qed.

(** ** Words of the about text: what [search_word] decides *)

Lemma get_after_prefix (w b : string) :
  String.get (String.length w) (w +:+ b)
  = match b with EmptyString => None | String c _ => Some c end.
Proof. induction w as [|x w IH]; simpl; [by destruct b | exact IH]. Qed.

Lemma boundary_after_spec (w b : string) :
  boundary_after w (w +:+ b) = true ↔ starts_nonword b.
Proof.
  unfold boundary_after, starts_nonword. rewrite get_after_prefix.
  destruct b as [|c b]; [split; [intros _ ? ? ?; discriminate | done] |].
  rewrite negb_true_iff. split.
  - intros H c' b' [= <- <-]. exact H.
  - intros H. by apply (H c b).
Qed.

Lemma ends_nonword_empty : ends_nonword EmptyString.
Proof. intros [|x a'] c H; simpl in H; discriminate. Qed.

Lemma ends_nonword_cons (c : ascii) (a : string) :
  ends_nonword (String c a)
  ↔ (a = EmptyString → is_word_char c = false) ∧ ends_nonword a.
Proof.
  split.
  - intros H. split.
    + intros ->. by apply (H EmptyString c).
    + intros a' c' ->. by apply (H (String c a') c').
  - intros [H1 H2] [|x a'] c' E; simpl in E.
    + injection E as -> ->. by apply H1.
    + injection E as -> ->. by apply (H2 a' c').
Qed.

Lemma search_word_from_spec (prev : bool) (w s : string) :
  search_word_from prev w s = true
  ↔ ∃ a b, s = a +:+ w +:+ b ∧ (a = EmptyString → prev = false)
           ∧ ends_nonword a ∧ starts_nonword b.
Proof.
  revert prev. induction s as [|c t IH]; intros prev.
  - simpl. destruct (negb prev && startswith w EmptyString
                     && boundary_after w EmptyString) eqn:E.
    + split; [intros _ | done].
      apply andb_true_iff in E as [E Hb]. apply andb_true_iff in E as [Hp Hw].
      apply startswith_spec in Hw as [b Hb']. exists EmptyString, b.
      split; [done |]. split; [by destruct prev |].
      split; [apply ends_nonword_empty |].
      rewrite Hb' in Hb. by apply boundary_after_spec in Hb.
    + split; [done |]. intros (a & b & Hs & Hp & Ha & Hb).
      destruct a; simpl in Hs; [| discriminate]. rewrite Hp in E by done.
      rewrite Hs in E.
      assert (startswith w (w +:+ b) = true) as E1
        by (apply startswith_spec; by exists b).
      assert (boundary_after w (w +:+ b) = true) as E2
        by by apply boundary_after_spec.
      rewrite E1, E2 in E. done.
  - simpl. destruct (negb prev && startswith w (String c t)
                     && boundary_after w (String c t)) eqn:E.
    + split; [intros _ | done].
      apply andb_true_iff in E as [E Hb]. apply andb_true_iff in E as [Hp Hw].
      apply startswith_spec in Hw as [b Hb']. exists EmptyString, b.
      split; [done |]. split; [by destruct prev |].
      split; [apply ends_nonword_empty |].
      rewrite Hb' in Hb. by apply boundary_after_spec in Hb.
    + rewrite IH. split.
      * intros (a & b & -> & Hp & Ha & Hb). exists (String c a), b.
        split; [done |]. split; [done |]. split; [| done].
        by apply ends_nonword_cons.
      * intros (a & b & Hs & Hp & Ha & Hb). destruct a as [|x a].
        -- simpl in Hs. rewrite Hp in E by done. rewrite Hs in E.
           assert (startswith w (w +:+ b) = true) as E1
             by (apply startswith_spec; by exists b).
           assert (boundary_after w (w +:+ b) = true) as E2
             by by apply boundary_after_spec.
           rewrite E1, E2 in E. done.
        -- simpl in Hs. injection Hs as -> ->.
           apply ends_nonword_cons in Ha as [Ha1 Ha2]. by exists a, b.
Qed.

Lemma search_word_spec (w s : string) : search_word w s = true ↔ has_word w s.
Proof.
  unfold search_word, has_word. rewrite search_word_from_spec.
  split.
  - intros (a & b & Hs & _ & Ha & Hb). by exists a, b.
  - intros (a & b & Hs & Ha & Hb). by exists a, b.
Qed.

Lemma search_word_false (w s : string) : search_word w s = false ↔ ¬ has_word w s.
Proof. rewrite <- search_word_spec. by destruct (search_word w s). Qed.




(** ** Digits of a fact widget: what [search_digits] finds *)

Lemma take_digits_split (t : string) :
  ∃ post, t = take_digits t +:+ post
          ∧ str_forall is_digit (take_digits t) = true ∧ starts_nondigit post.
Proof.
  induction t as [|c t (post & Ht & Hd & Hp)]; simpl.
  - exists EmptyString. split; [done |]. split; [done |].
    intros ? ? ?; discriminate.
  - destruct (is_digit c) eqn:Ec; simpl.
    + exists post. rewrite Ec, Hd. split; [by rewrite <- Ht | done].
    + exists (String c t). split; [done |]. split; [done |].
      by intros ? ? [= <- <-].
Qed.

Lemma take_digits_app (m post : string) :
  str_forall is_digit m = true → starts_nondigit post →
  take_digits (m +:+ post) = m.
Proof.
  intros Hm Hp. induction m as [|c m IH]; simpl in *.
  - destruct post as [|c post]; simpl; [done |]. by rewrite (Hp c post).
  - apply andb_true_iff in Hm as [-> Hm]. by rewrite IH.
Qed.

Lemma search_digits_Some (text m : string) :
  search_digits text = Some m ↔ first_digit_run text m.
Proof.
  split.
  - revert m. induction text as [|c t IH]; simpl; intros m; [done |].
    destruct (is_digit c) eqn:Ec.
    + intros [= <-]. destruct (take_digits_split t) as (post & Ht & Hd & Hp).
      exists EmptyString, post. simpl. split; [by rewrite <- Ht |].
      split; [done |]. split; [| done]. unfold isdigit. simpl. by rewrite Ec, Hd.
    + intros Hs. destruct (IH m Hs) as (pre & post & -> & Hpre & Hm & Hpost).
      exists (String c pre), post. split; [done |]. split; [| done].
      unfold no_digit. simpl. by rewrite Ec.
  - intros (pre & post & -> & Hpre & Hm & Hpost).
    induction pre as [|c pre IH]; simpl.
    + destruct m as [|d m]; [done |]. unfold isdigit in Hm. simpl in *.
      apply andb_true_iff in Hm as [-> Hm]. by rewrite take_digits_app.
    + unfold no_digit in Hpre. simpl in Hpre.
      apply andb_true_iff in Hpre as [Hc Hpre]. apply negb_true_iff in Hc.
      rewrite Hc. by apply IH.
Qed.

Lemma search_digits_None (text : string) :
  search_digits text = None ↔ no_digit text.
Proof.
  unfold no_digit. induction text as [|c t IH]; simpl; [done |].
  destruct (is_digit c); simpl; [split; done | exact IH].
Qed.

Lemma search_digits_isdigit (text : string) :
  isdigit text = true → search_digits text = Some text.
Proof.
  intros H. apply search_digits_Some. exists EmptyString, EmptyString.
  simpl. rewrite app_empty_r. split; [done |]. split; [done |].
  split; [done |]. intros ? ? ?; discriminate.
Qed.

Lemma py_int_cases (m : string) :
  (over_int_limit m ∧ py_int m = Raised)
  ∨ (¬ over_int_limit m ∧ py_int m = Ok (int_of_digits m)).
Proof.
  unfold py_int, over_int_limit. cbv zeta.
  destruct (Nat.ltb_spec 640 (String.length m)),
    (Nat.ltb_spec 0 int_max_str_digits),
    (Nat.ltb_spec int_max_str_digits (String.length m)); simpl;
    [left | right ..]; (split; [| done]); lia.
Qed.

Lemma py_int_short (m : string) :
  (String.length m ≤ 640)%nat → py_int m = Ok (int_of_digits m).
Proof.
  intros H. destruct (py_int_cases m) as [[(H1 & _) _] | [_ ->]]; [lia | done].
Qed.

(** Both branches of the age parser read the first run of digits. *)
Lemma parse_age_search (text : string) :
  parse_age (Some text) = parse_relationships_total (Some text).
Proof.
  unfold parse_age, parse_relationships_total. destruct (isdigit text) eqn:E.
  - by rewrite search_digits_isdigit.
  - done.
Qed.

Lemma parse_digits_spec (text : string) :
  (∀ n, parse_relationships_total (Some text) = Ok (Some n)
        ↔ ∃ m, first_digit_run text m ∧ ¬ over_int_limit m ∧ n = int_of_digits m)
  ∧ (parse_relationships_total (Some text) = Ok None ↔ no_digit text)
  ∧ (parse_relationships_total (Some text) = Raised
     ↔ ∃ m, first_digit_run text m ∧ over_int_limit m).
Proof.
  unfold parse_relationships_total.
  destruct (search_digits text) as [m|] eqn:E.
  - assert (¬ no_digit text) as Hnd
      by (rewrite <- search_digits_None; congruence).
    assert (∀ m', first_digit_run text m' ↔ m' = m) as Hm.
    { intros m'. rewrite <- search_digits_Some, E. split; congruence. }
    destruct (py_int_cases m) as [[Ho ->] | [Hno ->]]; simpl; split_and!.
    + intros n. split; [done |]. intros (m' & ->%Hm & ? & _). done.
    + split; done.
    + split; [| done]. intros _. exists m. by rewrite Hm.
    + intros n. split.
      * intros [= <-]. exists m. by rewrite Hm.
      * intros (m' & ->%Hm & _ & ->). done.
    + split; done.
    + split; [done |]. intros (m' & ->%Hm & ?). done.
  - apply search_digits_None in E as Hnd.
    assert (∀ m', ¬ first_digit_run text m') as Hm.
    { intros m'. rewrite <- search_digits_Some, E. done. }
    split_and!.
    + intros n. split; [done |]. intros (m' & ?%Hm & _). done.
    + done.
    + split; [done |]. intros (m' & ?%Hm & _). done.
Qed.


(** ** Slugs from hrefs *)

Lemma rstrip_idemp (p : ascii → bool) (s : string) :
  rstrip p (rstrip p s) = rstrip p s.
Proof.
  induction s as [|c t IH]; simpl; [done |].
  destruct (is_empty (rstrip p t) && p c) eqn:E; simpl; [done |].
  by rewrite IH, E.
Qed.

Lemma split_nonempty (sep : ascii) (s : string) : split sep s ≠ [].
Proof.
  destruct s as [|c t]; simpl; [done |].
  case_decide; [done |]. by destruct (split sep t).
Qed.

(** The last segment of a non-empty path that does not end with a slash is
    not empty. *)
Lemma last_split_nonempty (s x : string) :
  rstrip is_slash s = s → s ≠ EmptyString →
  last (split "/" s) = Some x → x ≠ EmptyString.
Proof.
  revert x. induction s as [|c t IH]; intros x Hs Hne; [done |].
  simpl in Hs. destruct (is_empty (rstrip is_slash t) && is_slash c) eqn:E; [done |].
  injection Hs as Ht. simpl.
  destruct t as [|c' t'].
  - simpl in *. unfold is_slash in E. case_decide as Hc.
    + subst c. by rewrite bool_decide_eq_true_2 in E.
    + simpl. by intros [= <-].
  - specialize (IH x Ht ltac:(done)).
    pose proof (split_nonempty "/" (String c' t')) as Hsp.
    case_decide.
    + destruct (split "/" (String c' t')) as [|q qs] eqn:Eq; [done |]. exact IH.
    + destruct (split "/" (String c' t')) as [|q qs] eqn:Eq; [done |].
      destruct qs as [|q' qs']; [simpl; by intros [= <-] | exact IH].
Qed.

(** Only the branch for the profile prefix returns the empty string: the path
    then has an empty segment right after its first segment "dating". *)
Lemma safe_slug_empty_only_after_prefix (href : string) :
  safe_slug_from_href href = Ok (Some EmptyString) →
  ∃ parsed p0 rest,
    urlparse_path href = Ok parsed
    ∧ split "/" (strip is_slash (if negb (is_empty parsed) then parsed else href))
      = p0 :: EmptyString :: rest
    ∧ lower p0 = "dating".
Proof.
  unfold safe_slug_from_href. destruct (is_empty href); [done |].
  destruct (urlparse_path href) as [parsed|]; [| done]. simpl.
  set (path := strip is_slash (if negb (is_empty parsed) then parsed else href)).
  destruct (is_empty path) eqn:Hp; [done |].
  assert (path ≠ EmptyString) as Hne by (intros E; by rewrite E in Hp).
  assert (rstrip is_slash path = path) as Hr by apply rstrip_idemp.
  destruct (split "/" path) as [|p0 [|p1 rest]] eqn:Es.
  - done.
  - intros [= Hl]. exfalso. eapply (last_split_nonempty path); [done | done | | done].
    by rewrite Es, Hl.
  - case_bool_decide as Hd.
    + intros [= ->]. by exists parsed, p0, rest.
    + intros [= Hl]. exfalso.
      eapply (last_split_nonempty path); [done | done | | done].
      rewrite Es. exact Hl.
Qed.

(** C5: the code returns the empty string, not [None], for an href whose path
    has an empty segment right after the profile prefix. *)
Theorem C5_safe_slug_empty_second_segment :
  safe_slug_from_href "/dating//x" = Ok (Some EmptyString)
  ∧ safe_slug_from_href "https://www.whosdatedwho.com/dating//x" = Ok (Some EmptyString).
Proof. split; reflexivity. Qed.

(** ** Traces: the delay after a fetch *)

Lemma polite_app (a b : list event) : polite a → polite b → polite (a ++ b).
Proof. induction 1; intros Hb; simpl; [done | |]; constructor; auto. Qed.

Lemma polite_head (tr : list event) : polite tr → tr !! 0%nat ≠ Some ESleep.
Proof. by destruct 1. Qed.

Lemma polite_delay_after_success (tr : list event) :
  polite tr → delay_after_successful_fetch tr.
Proof.
  induction 1 as [|w tr _ IH|w tr _ IH]; intros i what Hi.
  - done.
  - destruct i as [|[|i]]; simpl in *; [done | done | by eapply IH].
  - destruct i as [|i]; simpl in *; [done | by eapply IH].
Qed.

Lemma polite_no_delay_after_failure (tr : list event) :
  polite tr → no_delay_after_failed_fetch tr.
Proof.
  induction 1 as [|w tr _ IH|w tr Htr IH]; intros i what Hi.
  - done.
  - destruct i as [|[|i]]; simpl in *; [done | done | by eapply IH].
  - destruct i as [|i]; simpl in *; [by apply polite_head | by eapply IH].
Qed.

(** ** The traversal: one pass through the loop body *)

Lemma loop_body_pass (fetch : fetcher) (target_num : Z) (st st' : bfs_state) :
  state_after (loop_body fetch target_num st) = Some st' → pass fetch st st'.
Proof.
  unfold loop_body. destruct (queue st) as [|current rest] eqn:Hq; [done |].
  case_decide as Hv.
  { intros [= <-]. by eapply pass_skip. }
  destruct (fetch (trace st) current) as [sp|] eqn:Hf.
  - destruct (parse_partners_from_history sp) as [partners|] eqn:Hp; [| done].
    cbv zeta.
    match goal with |- context [if ?b then Break ?s else Next ?s] =>
      replace (state_after (if b then Break s else Next s)) with (Some s)
        by by destruct b
    end.
    intros [= <-]. by eapply pass_ok.
  - intros [= <-]. by eapply pass_fail.
Qed.

Lemma enqueue_spec (vis : gset string) (coll ps q : list string) :
  ∃ added, enqueue vis coll q ps = q ++ added
           ∧ added `sublist_of` ps ∧ NoDup added
           ∧ ∀ p, p ∈ added ↔ p ∈ ps ∧ (p ∉ vis) ∧ (p ∉ q) ∧ (p ∉ coll).
Proof.
  unfold enqueue. revert q. induction ps as [|p0 ps IH]; intros q; simpl.
  - exists []. rewrite app_nil_r. split; [done |]. split; [done |].
    split; [constructor |]. intros p. rewrite elem_of_nil. tauto.
  - case_decide as Hd.
    + destruct (IH (q ++ [p0])) as (added & -> & Hsub & Hnd & Hin).
      exists (p0 :: added). rewrite <- app_assoc. split; [done |].
      split; [by constructor |]. split.
      * constructor; [| done]. rewrite Hin, elem_of_app, list_elem_of_singleton.
        tauto.
      * intros p. rewrite elem_of_cons, Hin, elem_of_cons, elem_of_app,
          list_elem_of_singleton.
        destruct (decide (p = p0)) as [->|]; tauto.
    + destruct (IH q) as (added & -> & Hsub & Hnd & Hin).
      exists added. split; [done |]. split; [by constructor |].
      split; [done |]. intros p. rewrite Hin, elem_of_cons.
      split; [tauto |]. intros ([->|?] & ? & ? & ?); tauto.
Qed.

(** ** The traversal: invariants of the loop *)

Lemma bfs_inv_init (start_slug : string) : bfs_inv (bfs_init start_slug).
Proof.
  split; simpl.
  - apply NoDup_singleton.
  - intros x _. set_solver.
  - constructor.
  - intros x Hx. by apply elem_of_nil in Hx.
  - constructor.
Qed.

(** Under the invariant the dequeued slug is never collected already: the
    test of line 54 always succeeds. *)
Lemma inv_current_fresh (st : bfs_state) (current : string) (rest : list string) :
  bfs_inv st → queue st = current :: rest →
  (current ∉ rest) ∧ NoDup rest ∧ (current ∉ visited st) ∧ (current ∉ collected st).
Proof.
  intros [Hq Hqv Hc Hcv _] E. rewrite E in Hq, Hqv.
  apply NoDup_cons in Hq as [Hcur Hrest].
  assert (current ∉ visited st) as Hv by (apply Hqv; left).
  repeat split; try done. intros Hin. by apply Hv, Hcv.
Qed.

Lemma pass_inv (fetch : fetcher) (st st' : bfs_state) :
  bfs_inv st → pass fetch st st' → bfs_inv st'.
Proof.
  intros Hinv Hpass. destruct Hpass as
    [current rest E Hv | current rest E Hv Hf | current rest sp partners E Hv Hf Hp coll'];
    destruct (inv_current_fresh st current rest Hinv E) as (Hcr & Hrest & _ & Hcc);
    destruct Hinv as [Hq Hqv Hc Hcv Htr]; rewrite E in Hqv.
  - by destruct ((Hqv current) ltac:(left)).
  - split; simpl; try done.
    + intros x Hx. specialize (Hqv x ltac:(by right)).
      assert (x ≠ current) by (by intros ->). set_solver.
    + intros x Hx. specialize (Hcv x Hx). set_solver.
    + apply polite_app; [done |]. repeat constructor.
  - subst coll'. rewrite decide_True by done.
    destruct (enqueue_spec (visited st ∪ {[current]}) (collected st ++ [current])
                partners rest) as (added & Hadd & _ & Hnd & Hin).
    split; simpl.
    + rewrite Hadd. apply NoDup_app. split; [done |]. split; [| done].
      intros x Hx Hx'. apply Hin in Hx'. tauto.
    + rewrite Hadd. intros x Hx. apply elem_of_app in Hx as [Hx|Hx].
      * specialize (Hqv x ltac:(by right)).
        assert (x ≠ current) by (by intros ->). set_solver.
      * apply Hin in Hx. tauto.
    + apply NoDup_app. split; [done |]. split; [| apply NoDup_singleton].
      intros x Hx Hx'. apply list_elem_of_singleton in Hx'. by subst x.
    + intros x Hx. apply elem_of_app in Hx as [Hx|Hx].
      * specialize (Hcv x Hx). set_solver.
      * apply list_elem_of_singleton in Hx. set_solver.
    + apply polite_app; [done |]. repeat constructor.
Qed.

Lemma pass_visited_grows (fetch : fetcher) (st st' : bfs_state) :
  pass fetch st st' → visited st ⊆ visited st'.
Proof. destruct 1; simpl; set_solver. Qed.

Lemma bfs_reach_inv (fetch : fetcher) (target_num : Z) (start_slug : string)
    (st : bfs_state) :
  bfs_reach fetch target_num start_slug st → bfs_inv st.
Proof.
  induction 1 as [|st st' _ IH _ Hb|st st' _ IH _ Hb].
  - apply bfs_inv_init.
  - eapply pass_inv; [exact IH |]. eapply loop_body_pass. by rewrite Hb.
  - eapply pass_inv; [exact IH |]. eapply loop_body_pass. by rewrite Hb.
Qed.

(** ** The traversal: the loop ends *)

Lemma loop_cond_spec (target_num : Z) (st : bfs_state) :
  loop_cond target_num st = true
  ↔ queue st ≠ [] ∧ Z.of_nat (length (collected st)) < target_num.
Proof.
  unfold loop_cond.
  rewrite andb_true_iff, negb_true_iff, bool_decide_eq_false, Z.ltb_lt. done.
Qed.

Lemma bfs_loop_done (fetch : fetcher) (target_num : Z) (fuel : nat) (st : bfs_state) :
  loop_cond target_num st = false →
  bfs_loop fetch target_num fuel st = Some (Ok st).
Proof. intros H. destruct fuel; simpl; by rewrite H. Qed.

Lemma bfs_loop_pass (fetch : fetcher) (target_num : Z) (fuel : nat) (st : bfs_state) :
  loop_cond target_num st = true →
  bfs_loop fetch target_num (S fuel) st
  = match loop_body fetch target_num st with
    | Next st' => bfs_loop fetch target_num fuel st'
    | Break st' => Some (Ok st')
    | Crash => Some Raised
    end.
Proof. intros H. simpl. by rewrite H. Qed.

Lemma bfs_loop_fuel_mono (fetch : fetcher) (target_num : Z) (fuel fuel' : nat)
    (st : bfs_state) (r : res bfs_state) :
  bfs_loop fetch target_num fuel st = Some r → (fuel ≤ fuel')%nat →
  bfs_loop fetch target_num fuel' st = Some r.
Proof.
  revert fuel' st. induction fuel as [|fuel IH]; intros fuel' st; simpl.
  - destruct (loop_cond target_num st) eqn:Hc; [done |].
    intros H _. destruct fuel'; simpl; by rewrite Hc.
  - destruct (loop_cond target_num st) eqn:Hc.
    + intros H Hle. destruct fuel' as [|fuel']; [lia |]. simpl. rewrite Hc.
      destruct (loop_body fetch target_num st); [| done | done].
      apply IH; [done | lia].
    + intros H _. destruct fuel'; simpl; by rewrite Hc.
Qed.

Lemma bfs_loop_reach (fetch : fetcher) (target_num : Z) (start_slug : string)
    (fuel : nat) (st st' : bfs_state) :
  bfs_reach fetch target_num start_slug st →
  bfs_loop fetch target_num fuel st = Some (Ok st') →
  bfs_reach fetch target_num start_slug st'.
Proof.
  revert st. induction fuel as [|fuel IH]; intros st Hr; simpl;
    destruct (loop_cond target_num st) eqn:Hc; try done.
  - by intros [= <-].
  - destruct (loop_body fetch target_num st) as [st1|st1|] eqn:Hb; [| | done].
    + apply IH. by eapply reach_next.
    + intros [= <-]. by eapply reach_break.
  - by intros [= <-].
Qed.

(** The loop ends from every state that satisfies the invariant: the number
    of slugs still to collect and then the length of the queue decrease. *)
Lemma bfs_loop_terminates (fetch : fetcher) (target_num : Z) (st : bfs_state) :
  bfs_inv st → ∃ fuel r, bfs_loop fetch target_num fuel st = Some r.
Proof.
  remember (Z.to_nat (target_num - Z.of_nat (length (collected st)))) as k eqn:Hk.
  assert (Z.to_nat (target_num - Z.of_nat (length (collected st))) ≤ k)%nat
    as Hle by lia.
  clear Hk. revert st Hle. induction k as [|k IHk]; intros st Hle Hinv.
  { exists O. simpl. unfold loop_cond.
    replace (Z.of_nat (length (collected st)) <? target_num) with false
      by (symmetry; apply Z.ltb_ge; lia).
    rewrite andb_false_r. eauto. }
  remember (length (queue st)) as n eqn:Hn.
  assert (length (queue st) ≤ n)%nat as Hlen by lia. clear Hn.
  revert st Hle Hinv Hlen. induction n as [|n IHn]; intros st Hle Hinv Hlen.
  { exists O. simpl. unfold loop_cond. destruct (queue st); [| simpl in Hlen; lia].
    rewrite bool_decide_eq_true_2 by done. simpl. eauto. }
  destruct (loop_cond target_num st) eqn:Hc; [| exists O; simpl; rewrite Hc; eauto].
  destruct (loop_body fetch target_num st) as [st1|st1|] eqn:Hb.
  - assert (pass fetch st st1) as Hpass by (eapply loop_body_pass; by rewrite Hb).
    assert (bfs_inv st1) as Hinv1 by by eapply pass_inv.
    assert (∃ fuel r, bfs_loop fetch target_num fuel st1 = Some r)
      as (fuel & r & Hrun).
    { destruct Hpass as
        [current rest E Hv | current rest E Hv Hf
        | current rest sp partners E Hv Hf Hp coll'].
      - apply IHn; simpl; [done | done |]. rewrite E in Hlen. simpl in Hlen. lia.
      - apply IHn; simpl; [done | done |]. rewrite E in Hlen. simpl in Hlen. lia.
      - apply IHk; [| done]. simpl. subst coll'.
        destruct (inv_current_fresh st current rest Hinv E) as (_ & _ & _ & Hcc).
        rewrite decide_True by done. rewrite length_app. simpl.
        unfold loop_cond in Hc. apply andb_true_iff in Hc as [_ Hc].
        apply Z.ltb_lt in Hc. lia. }
    exists (S fuel), r. simpl. by rewrite Hc, Hb.
  - exists 1%nat, (Ok st1). simpl. by rewrite Hc, Hb.
  - exists 1%nat, Raised. simpl. by rewrite Hc, Hb.
Qed.

Lemma find_dating_links_bfs_terminates (fetch : fetcher) (start_slug : string)
    (target_num : Z) :
  ∃ fuel r, find_dating_links_bfs fetch start_slug target_num fuel = Some r.
Proof.
  destruct (bfs_loop_terminates fetch target_num (bfs_init start_slug)
              (bfs_inv_init start_slug)) as (fuel & r & H).
  exists fuel. unfold find_dating_links_bfs. rewrite H. destruct r; eauto.
Qed.

(** ** The scenario of the specification, run *)

Lemma scenario_run :
  bfs_loop scenario 4 4 (bfs_init "a")
  = Some (Ok {| queue := []; visited := {["a"; "b"; "c"; "d"]};
                collected := ["a"; "b"; "c"];
                trace := [EFetch "a" true; ESleep; EFetch "b" true; ESleep;
                          EFetch "c" true; ESleep; EFetch "d" false] |}).
Proof. vm_compute. reflexivity. Qed.

Lemma slice_to_NoDup {A} (l : list A) (n : Z) : NoDup l → NoDup (slice_to l n).
Proof.
  intros H. unfold slice_to.
  destruct (0 <=? n); (eapply sublist_NoDup; [exact H | apply sublist_take]).
Qed.

Lemma slice_to_nil {A} (n : Z) : slice_to (@nil A) n = [].
Proof. unfold slice_to. destruct (0 <=? n); apply take_nil. Qed.

(** ** The traversal: the claims on its state *)

(** C2: the traversal never collects an identifier twice.  In every state the
    loop passes through, [collected] has as many entries as distinct entries;
    the traversal ends for every seed, target and fetch behaviour; and the
    sequence it returns has no duplicates. *)
Theorem C2_collected_has_no_duplicates
    (fetch : fetcher) (start_slug : string) (target_num : Z) :
  (∀ st, bfs_reach fetch target_num start_slug st →
         NoDup (collected st)
         ∧ length (collected st) = size (list_to_set (C:=gset string) (collected st)))
  ∧ (∃ fuel r, find_dating_links_bfs fetch start_slug target_num fuel = Some r)
  ∧ (∀ fuel result,
       find_dating_links_bfs fetch start_slug target_num fuel = Some (Ok result) →
       NoDup result
       ∧ length result = size (list_to_set (C:=gset string) result)).
Proof.
  split; [| split].
  - intros st Hr. apply bfs_reach_inv in Hr as [_ _ Hc _ _].
    split; [done |]. by rewrite size_list_to_set.
  - apply find_dating_links_bfs_terminates.
  - intros fuel result. unfold find_dating_links_bfs.
    destruct (bfs_loop fetch target_num fuel (bfs_init start_slug))
      as [[st|]|] eqn:Hrun; [| done | done].
    intros [= <-].
    assert (NoDup (collected st)) as Hc.
    { eapply bfs_loop_reach in Hrun; [| apply reach_init].
      by apply bfs_reach_inv in Hrun as [_ _ Hc _ _]. }
    apply (slice_to_NoDup _ target_num) in Hc.
    split; [done |]. by rewrite size_list_to_set.
Qed.

(** C3: after each pass of the loop the queue holds no identifier that is in
    [visited], and a pass never removes an identifier from [visited]. *)
Theorem C3_visited_grows_and_queue_unvisited
    (fetch : fetcher) (start_slug : string) (target_num : Z) (st : bfs_state) :
  bfs_reach fetch target_num start_slug st →
  (∀ x, x ∈ queue st → x ∉ visited st)
  ∧ (∀ st', loop_cond target_num st = true →
            state_after (loop_body fetch target_num st) = Some st' →
            visited st ⊆ visited st' ∧ ∀ x, x ∈ queue st' → x ∉ visited st').
Proof.
  intros Hr. pose proof (bfs_reach_inv _ _ _ _ Hr) as Hinv. split.
  - by destruct Hinv.
  - intros st' _ Hb. apply loop_body_pass in Hb. split.
    + by eapply pass_visited_grows.
    + by destruct (pass_inv _ _ _ Hinv Hb).
Qed.

(** C10: in every state the loop passes through, each identifier occurs at
    most once in the queue; what a pass appends to the queue is new to the
    queue, to [visited] and to [collected]. *)
Theorem C10_queue_has_no_duplicates
    (fetch : fetcher) (start_slug : string) (target_num : Z) (st : bfs_state) :
  bfs_reach fetch target_num start_slug st →
  NoDup (queue st)
  ∧ ∀ vis coll q partners, ∃ added,
      enqueue vis coll q partners = q ++ added
      ∧ NoDup added
      ∧ ∀ p, p ∈ added → (p ∉ q) ∧ (p ∉ vis) ∧ (p ∉ coll).
Proof.
  intros Hr. split.
  - by apply bfs_reach_inv in Hr as [Hq _ _ _ _].
  - intros vis coll q partners.
    destruct (enqueue_spec vis coll partners q) as (added & E & _ & Hnd & Hin).
    exists added. split; [done |]. split; [done |].
    intros p Hp. apply Hin in Hp. tauto.
Qed.

Lemma scenario_reach_after_two_passes :
  bfs_reach scenario 4 "a"
    {| queue := ["c"; "d"]; visited := {["a"; "b"]}; collected := ["a"; "b"];
       trace := [EFetch "a" true; ESleep; EFetch "b" true; ESleep] |}.
Proof.
  eapply reach_next; [eapply reach_next; [apply reach_init | |] | |];
    vm_compute; reflexivity.
Defined.

(** C6: when the fetch of the seed fails the traversal returns the empty
    sequence; for a positive target the loop makes one pass, which marks the
    seed visited, collects nothing, enqueues nothing and leaves the queue
    empty. *)
Theorem C6_failing_seed_returns_empty
    (fetch : fetcher) (start_slug : string) (target_num : Z) (fuel : nat) :
  fetch [] start_slug = None → (1 ≤ fuel)%nat →
  find_dating_links_bfs fetch start_slug target_num fuel = Some (Ok [])
  ∧ (0 < target_num →
     bfs_loop fetch target_num fuel (bfs_init start_slug)
     = Some (Ok {| queue := []; visited := {[start_slug]}; collected := [];
                   trace := [EFetch start_slug false] |})).
Proof.
  intros Hf Hfuel. destruct fuel as [|fuel]; [lia |].
  assert (0 < target_num →
     bfs_loop fetch target_num (S fuel) (bfs_init start_slug)
     = Some (Ok {| queue := []; visited := {[start_slug]}; collected := [];
                   trace := [EFetch start_slug false] |})) as Hpos.
  { intros Hpos. rewrite bfs_loop_pass by (apply loop_cond_spec; simpl; split; [done | lia]).
    unfold loop_body. simpl. rewrite decide_False by set_solver.
    rewrite Hf, (left_id_L ∅ (∪)). apply bfs_loop_done.
    apply not_true_iff_false. rewrite loop_cond_spec. simpl. tauto. }
  split; [| exact Hpos]. unfold find_dating_links_bfs.
  destruct (decide (0 < target_num)) as [Hp|Hn].
  - rewrite Hpos by done. simpl. by rewrite slice_to_nil.
  - rewrite bfs_loop_done.
    + simpl. by rewrite slice_to_nil.
    + apply not_true_iff_false. rewrite loop_cond_spec. simpl. lia.
Qed.

(** ** The delay after a fetch, in the three components *)

Lemma write_loop_trace (fetch : fetcher) (slugs : list string) (st st' : writer_state) :
  write_loop fetch slugs st = Ok st' →
  ∃ new, wtrace st' = wtrace st ++ new ∧ polite new.
Proof.
  revert st. induction slugs as [|slug slugs IH]; intros st; simpl.
  - intros [= <-]. exists []. rewrite app_nil_r. split; [done | constructor].
  - unfold fetch_profile. destruct (fetch (wtrace st) slug) as [sp|].
    + destruct (parse_facts_block sp) as [fs|]; simpl; [| done].
      destruct (parse_partners_from_history sp) as [partners|]; simpl; [| done].
      intros H. apply IH in H as (new & -> & Hnew). simpl.
      exists (EFetch slug true :: ESleep :: new).
      rewrite <- !app_assoc. split; [done | by constructor].
    + intros H. apply IH in H as (new & -> & Hnew). simpl.
      exists (EFetch slug false :: new).
      rewrite <- !app_assoc. split; [done | by constructor].
Qed.


(** ** The traversal on a graph whose pages all fetch and parse *)

Section breadth_first.
Variables (g : string → option soup) (seed : string) (target_num : Z).

Lemma is_dist_unique v d1 d2 :
  is_dist g seed v d1 → is_dist g seed v d2 → d1 = d2.
Proof.
  intros [H1 M1] [H2 M2]. specialize (M1 _ H2). specialize (M2 _ H1). lia.
Qed.

Lemma order_inv_init : order_inv g seed target_num (bfs_init seed).
Proof.
  split; simpl.
  - apply bfs_inv_init.
  - set_solver.
  - unfold discovered. simpl. set_solver.
  - unfold discovered. simpl. intros x Hx. apply list_elem_of_singleton in Hx as ->.
    exists O. split; [constructor | lia].
  - intros i j a b da db Hij Ha Hb Hda Hdb. unfold discovered in *. simpl in *.
    apply list_lookup_singleton_Some in Ha as [_ <-].
    apply list_lookup_singleton_Some in Hb as [_ <-].
    assert (da = db) by by eapply is_dist_unique. lia.
  - intros h rest b dh db [= <- <-] Hb. by apply elem_of_nil in Hb.
  - intros x y Hx. by apply elem_of_nil in Hx.
  - lia.
Qed.

(** A discovered slug nearer to the seed than the head of the queue has been
    collected. *)
Lemma nearer_collected st current rest x d dx :
  order_inv g seed target_num st → queue st = current :: rest →
  is_dist g seed current d → x ∈ discovered st → is_dist g seed x dx →
  (dx < d)%nat → x ∈ collected st.
Proof.
  intros Hoi E Hd Hx Hdx Hlt. apply list_elem_of_lookup_1 in Hx as [i Hi].
  destruct (decide (i < length (collected st))%nat) as [Hl|Hl].
  - unfold discovered in Hi. rewrite lookup_app_l in Hi by done.
    by eapply list_elem_of_lookup_2.
  - assert (discovered st !! length (collected st) = Some current) as Hc.
    { unfold discovered. rewrite lookup_app_r by lia. rewrite E.
      by replace (length (collected st) - length (collected st))%nat with O by lia. }
    assert (d ≤ dx)%nat; [| lia].
    eapply (oi_sorted _ _ _ _ Hoi (length (collected st)) i current x);
      [lia | done ..].
Qed.

(** Everything within the distance of the head of the queue is discovered. *)
Lemma level_discovered st current rest d :
  order_inv g seed target_num st → queue st = current :: rest →
  is_dist g seed current d →
  ∀ k w, reach_in g seed k w → (k ≤ d)%nat → w ∈ discovered st.
Proof.
  intros Hoi E Hd k w Hr. induction Hr as [|n u v Hu IH He]; intros Hk.
  - by destruct Hoi.
  - assert (u ∈ discovered st) as Hud by (apply IH; lia).
    destruct (oi_dist _ _ _ _ Hoi u Hud) as [du Hdu].
    assert (du ≤ n)%nat by (by apply Hdu).
    eapply (oi_closed _ _ _ _ Hoi u v); [| done].
    eapply nearer_collected; eauto. lia.
Qed.

(** With an empty queue everything reachable has been collected. *)
Lemma exhausted_collected st :
  order_inv g seed target_num st → queue st = [] →
  ∀ v, reachable g seed v → v ∈ collected st.
Proof.
  intros Hoi E v [n Hr].
  assert (discovered st = collected st) as ED
    by (unfold discovered; by rewrite E, app_nil_r).
  induction Hr as [|n u v Hu IH He].
  - rewrite <- ED. by destruct Hoi.
  - rewrite <- ED. by eapply (oi_closed _ _ _ _ Hoi u v).
Qed.

Lemma after_head st current rest b d db :
  order_inv g seed target_num st → queue st = current :: rest →
  is_dist g seed current d → b ∈ rest → is_dist g seed b db → (d ≤ db)%nat.
Proof.
  intros Hoi E Hd Hb Hdb. apply list_elem_of_lookup_1 in Hb as [i Hi].
  eapply (oi_sorted _ _ _ _ Hoi (length (collected st))
            (length (collected st) + S i)%nat current b); [lia | | | done | done].
  - unfold discovered. rewrite lookup_app_r by lia. by rewrite E, Nat.sub_diag.
  - unfold discovered. rewrite lookup_app_r by lia. rewrite E.
    by replace (length (collected st) + S i - length (collected st))%nat
      with (S i) by lia.
Qed.

Lemma order_inv_ok st current rest sp partners :
  order_inv g seed target_num st → queue st = current :: rest →
  Z.of_nat (length (collected st)) < target_num →
  g current = Some sp → parse_partners_from_history sp = Ok partners →
  order_inv g seed target_num
    {| queue := enqueue (visited st ∪ {[current]}) (collected st ++ [current])
                  rest partners;
       visited := visited st ∪ {[current]};
       collected := collected st ++ [current];
       trace := trace st ++ [EFetch current true; ESleep] |}.
Proof.
  intros Hoi E Hlen Hg Hp.
  pose proof (oi_inv _ _ _ _ Hoi) as Hinv.
  destruct (inv_current_fresh st current rest Hinv E) as (Hcr & Hrest & Hcv & Hcc).
  assert (discovered st = collected st ++ current :: rest) as ED
    by (unfold discovered; by rewrite E).
  assert (current ∈ discovered st) as Hcd by (rewrite ED; set_solver).
  destruct (oi_dist _ _ _ _ Hoi current Hcd) as [d Hd].
  destruct (enqueue_spec (visited st ∪ {[current]}) (collected st ++ [current])
              partners rest) as (added & Hadd & Hsub & Hnd & Hin).
  assert (∀ p, p ∈ added → p ∉ discovered st) as Hnew.
  { intros p Hp' Hpd. apply Hin in Hp' as (_ & Hv & Hr & Hc).
    rewrite ED in Hpd. set_solver. }
  assert (∀ p, p ∈ added → is_dist g seed p (S d)) as Hdadd.
  { intros p Hp'. split.
    - eapply reach_S; [apply Hd |]. exists sp, partners.
      split; [done |]. split; [done |]. by apply Hin in Hp' as (? & _).
    - intros k Hk. destruct (decide (k ≤ d)%nat); [| lia]. exfalso.
      apply (Hnew p Hp'). eapply level_discovered; eauto. }
  assert (∀ a da, a ∈ discovered st → is_dist g seed a da → (da ≤ S d)%nat)
    as Hbound.
  { intros a da Ha Hda. rewrite ED in Ha. apply elem_of_app in Ha as [Ha|Ha].
    - apply list_elem_of_lookup_1 in Ha as [i Hi].
      assert (da ≤ d)%nat; [| lia].
      eapply (oi_sorted _ _ _ _ Hoi i (length (collected st)) a current);
        [| | | done | done].
      + apply lookup_lt_Some in Hi. lia.
      + unfold discovered. by apply lookup_app_l_Some.
      + unfold discovered. rewrite lookup_app_r by lia.
        by rewrite E, Nat.sub_diag.
    - apply elem_of_cons in Ha as [->|Ha].
      + assert (da = d) by by eapply is_dist_unique. lia.
      + eapply (oi_span _ _ _ _ Hoi); eauto. }
  set (st' := {| queue := _; visited := _; collected := _; trace := _ |}).
  assert (discovered st' = discovered st ++ added) as ED'.
  { unfold discovered. simpl. rewrite Hadd, E, <- !app_assoc. done. }
  split.
  - eapply (pass_inv (λ _, g)); [exact Hinv |].
    pose proof (pass_ok (λ _, g) st current rest sp partners E Hcv Hg Hp) as Hpass.
    simpl in Hpass. by rewrite decide_True in Hpass.
  - simpl. intros x Hx. apply elem_of_union in Hx as [Hx|Hx].
    + apply elem_of_app. left. by apply (oi_visited _ _ _ _ Hoi).
    + apply elem_of_app. right. set_solver.
  - rewrite ED'. apply elem_of_app. left. by destruct Hoi.
  - rewrite ED'. intros x Hx. apply elem_of_app in Hx as [Hx|Hx].
    + by apply (oi_dist _ _ _ _ Hoi).
    + exists (S d). by apply Hdadd.
  - rewrite ED'. intros i j a b da db Hij Ha Hb Hda Hdb.
    destruct (decide (j < length (discovered st))%nat) as [Hj|Hj].
    + rewrite lookup_app_l in Ha, Hb by lia.
      by eapply (oi_sorted _ _ _ _ Hoi i j a b).
    + rewrite lookup_app_r in Hb by lia. apply list_elem_of_lookup_2 in Hb.
      assert (db = S d) as -> by (eapply is_dist_unique; eauto).
      apply list_elem_of_lookup_2 in Ha. apply elem_of_app in Ha as [Ha|Ha].
      * by eapply Hbound.
      * assert (da = S d) as -> by (eapply is_dist_unique; eauto). lia.
  - simpl. rewrite Hadd. intros h rest' b dh db Eq Hb Hdh Hdb.
    assert (h ∈ rest ++ added) as Hh by (rewrite Eq; left).
    assert (b ∈ rest ++ added) as Hb' by (rewrite Eq; by right).
    assert (d ≤ dh)%nat.
    { apply elem_of_app in Hh as [Hh|Hh].
      - by eapply (after_head st current rest h).
      - assert (dh = S d) as -> by (eapply is_dist_unique; eauto). lia. }
    assert (db ≤ S d)%nat; [| lia].
    apply elem_of_app in Hb' as [Hb'|Hb'].
    + eapply Hbound; [| done]. rewrite ED. set_solver.
    + assert (db = S d) as -> by (eapply is_dist_unique; eauto). lia.
  - rewrite ED'. simpl. intros x y Hx He.
    apply elem_of_app in Hx as [Hx|Hx].
    + apply elem_of_app. left. by eapply (oi_closed _ _ _ _ Hoi).
    + apply list_elem_of_singleton in Hx as ->.
      destruct He as (sp' & partners' & Hg' & Hp' & Hy).
      rewrite Hg in Hg'. injection Hg' as <-.
      rewrite Hp in Hp'. injection Hp' as <-.
      destruct (decide (y ∈ added)) as [|Hna]; [set_solver |].
      apply elem_of_app. left. rewrite ED.
      destruct (decide (y ∈ visited st ∪ {[current]})) as [Hv|Hv].
      { apply elem_of_union in Hv as [Hv|Hv].
        - apply elem_of_app. left. by apply (oi_visited _ _ _ _ Hoi).
        - set_solver. }
      destruct (decide (y ∈ rest)) as [|Hr]; [set_solver |].
      destruct (decide (y ∈ collected st ++ [current])) as [|Hc]; [set_solver |].
      exfalso. apply Hna, Hin. done.
  - simpl. rewrite length_app. simpl. lia.
Qed.

Hypothesis pages_ok : ∀ v, reachable g seed v → page_ok g v.

(** Under the invariant a pass of the loop neither skips, nor fails, nor
    raises. *)
Lemma order_inv_pass st :
  order_inv g seed target_num st → loop_cond target_num st = true →
  ∃ st', (loop_body (λ _, g) target_num st = Next st'
          ∨ (loop_body (λ _, g) target_num st = Break st' ∧ queue st' = []))
         ∧ order_inv g seed target_num st'.
Proof.
  intros Hoi Hc. apply loop_cond_spec in Hc as [Hq Hlen].
  destruct (queue st) as [|current rest] eqn:E; [done |].
  pose proof (oi_inv _ _ _ _ Hoi) as Hinv.
  destruct (inv_current_fresh st current rest Hinv E) as (Hcr & Hrest & Hcv & Hcc).
  assert (current ∈ discovered st) as Hcd by (unfold discovered; rewrite E; set_solver).
  destruct (oi_dist _ _ _ _ Hoi current Hcd) as [d [Hd _]].
  destruct (pages_ok current (ex_intro _ d Hd)) as (sp & partners & Hg & Hp).
  pose proof (order_inv_ok st current rest sp partners Hoi E Hlen Hg Hp) as Hoi'.
  unfold loop_body. rewrite E, decide_False by done. rewrite Hg, Hp.
  rewrite decide_True by done. cbv zeta.
  match goal with |- context [if ?b then _ else _] => destruct b eqn:Hb end.
  - eexists. split; [right; split; [reflexivity |] | exact Hoi'].
    simpl. apply andb_true_iff in Hb as [Hb _]. by apply bool_decide_eq_true in Hb.
  - eexists. split; [left; reflexivity | exact Hoi'].
Qed.

Lemma order_inv_run fuel st r :
  order_inv g seed target_num st →
  bfs_loop (λ _, g) target_num fuel st = Some r →
  ∃ st', r = Ok st' ∧ order_inv g seed target_num st'
         ∧ (queue st' = [] ∨ target_num ≤ Z.of_nat (length (collected st'))).
Proof.
  revert st. induction fuel as [|fuel IH]; intros st Hoi;
    destruct (loop_cond target_num st) eqn:Hc.
  - simpl. by rewrite Hc.
  - rewrite bfs_loop_done by done. intros [= <-]. exists st.
    split; [done |]. split; [done |].
    apply not_true_iff_false in Hc. rewrite loop_cond_spec in Hc.
    destruct (queue st); [by left | right]. 
    destruct (decide (target_num ≤ Z.of_nat (length (collected st)))); [done |].
    exfalso. apply Hc. split; [done | lia].
  - rewrite bfs_loop_pass by done.
    destruct (order_inv_pass st Hoi Hc) as (st' & [Hb|[Hb Hq]] & Hoi'); rewrite Hb.
    + by apply IH.
    + intros [= <-]. exists st'. split; [done |]. split; [done | by left].
  - rewrite bfs_loop_done by done. intros [= <-]. exists st.
    split; [done |]. split; [done |].
    apply not_true_iff_false in Hc. rewrite loop_cond_spec in Hc.
    destruct (queue st); [by left | right].
    destruct (decide (target_num ≤ Z.of_nat (length (collected st)))); [done |].
    exfalso. apply Hc. split; [done | lia].
Qed.
End breadth_first.


Lemma three_pages_edges (u v : string) :
  edge three_pages u v → (u = "a" ∧ v ∈ ["b"; "c"]) ∨ (u = "b" ∧ v = "c").
Proof.
  intros (sp & partners & Hg & Hp & Hv). unfold three_pages in Hg.
  repeat case_decide; simplify_eq; vm_compute in Hp; simplify_eq.
  - by left.
  - right. split; [done |]. by apply list_elem_of_singleton in Hv.
  - by apply elem_of_nil in Hv.
Qed.

Lemma three_pages_reachable (v : string) :
  reachable three_pages "a" v → v ∈ ["a"; "b"; "c"].
Proof.
  intros [n Hr]. induction Hr as [|n u v _ _ He]; [set_solver |].
  apply three_pages_edges in He as [[_ Hv]|[_ ->]]; set_solver.
Qed.

Lemma three_pages_ok (v : string) :
  reachable three_pages "a" v → page_ok three_pages v.
Proof.
  intros Hv. apply three_pages_reachable in Hv.
  repeat (apply elem_of_cons in Hv as [->|Hv]);
    [| | | by apply elem_of_nil in Hv]; eexists _, _; split; reflexivity.
Qed.

Lemma three_pages_ascii (v : string) (sp : soup) :
  three_pages v = Some sp → ascii_links sp.
Proof.
  unfold three_pages. repeat case_decide; intros ?; simplify_eq;
    unfold ascii_links; simpl; repeat constructor.
Qed.

Lemma three_pages_nodes (v : string) :
  v ∈ ["a"; "b"] → reachable three_pages "a" v.
Proof.
  intros Hv. repeat (apply elem_of_cons in Hv as [->|Hv]);
    [| | by apply elem_of_nil in Hv].
  - exists O. constructor.
  - exists 1%nat. eapply reach_S; [constructor |].
    eexists _, _. split; [reflexivity |]. split; [reflexivity |]. set_solver.
Qed.

(** * More properties *)

(** ** The traversal: what it fetches and what it returns *)

Lemma unique_from_spec (seen : gset string) (ps : list string) :
  unique_from seen ps `sublist_of` ps
  ∧ NoDup (unique_from seen ps)
  ∧ ∀ p, p ∈ unique_from seen ps ↔ p ∈ ps ∧ p ∉ seen.
Proof.
  revert seen. induction ps as [|p ps IH]; intros seen; simpl.
  - split; [done |]. split; [constructor |]. intros p. rewrite elem_of_nil. tauto.
  - case_decide as Hp.
    + destruct (IH (seen ∪ {[p]})) as (Hs & Hn & Hi). split; [by constructor |].
      split.
      * constructor; [| done]. rewrite Hi. set_solver.
      * intros q. rewrite !elem_of_cons, Hi.
        destruct (decide (q = p)) as [->|]; set_solver.
    + destruct (IH seen) as (Hs & Hn & Hi). split; [by constructor |].
      split; [done |]. intros q. rewrite elem_of_cons, Hi.
      destruct (decide (q = p)) as [->|]; [| set_solver]. tauto.
Qed.

Lemma history_slugs_kept (hrefs slugs : list string) :
  history_slugs hrefs = Ok slugs → ∀ s, s ∈ slugs → kept_slug s.
Proof.
  revert slugs. induction hrefs as [|h hs IH]; intros slugs; simpl.
  - intros [= <-] s Hs. by apply elem_of_nil in Hs.
  - destruct (safe_slug_from_href (strip is_space h)) as [slug|]; [| done]. simpl.
    destruct (history_slugs hs) as [rest|]; [| done]. simpl.
    specialize (IH rest eq_refl).
    destruct slug as [s0|]; [| by intros [= <-]].
    destruct (is_empty s0) eqn:He; [by intros [= <-] |].
    destruct (is_individual_slug s0) eqn:Hi; simpl; [| by intros [= <-]].
    intros [= <-] s Hs. apply elem_of_cons in Hs as [->|Hs]; [done | by apply IH].
Qed.

Lemma parse_partners_kept (sp : soup) (partners : list string) :
  parse_partners_from_history sp = Ok partners →
  ∀ s, s ∈ partners → kept_slug s.
Proof.
  unfold parse_partners_from_history.
  destruct (history_hrefs sp) as [hrefs|].
  - destruct (history_slugs hrefs) as [slugs|] eqn:E; [| done]. simpl.
    intros [= <-] s Hs. apply unique_from_spec in Hs as [Hs _].
    by eapply history_slugs_kept.
  - intros [= <-] s Hs. by apply elem_of_nil in Hs.
Qed.

Lemma fetched_app (a b : list event) : fetched (a ++ b) = fetched a ++ fetched b.
Proof. unfold fetched. by rewrite omap_app. Qed.

Lemma fetched_ok_app (a b : list event) :
  fetched_ok (a ++ b) = fetched_ok a ++ fetched_ok b.
Proof. unfold fetched_ok. by rewrite omap_app. Qed.

Lemma bfs_inv_more_init (start_slug : string) (target_num : Z) :
  bfs_inv_more start_slug target_num (bfs_init start_slug).
Proof.
  split; simpl.
  - apply bfs_inv_init.
  - intros x [Hx|Hx]; [left; by apply list_elem_of_singleton in Hx
                      | by apply elem_of_nil in Hx].
  - intros x. set_solver.
  - constructor.
  - done.
  - lia.
  - left. split; [done |]. by right.
Qed.

Lemma pass_inv_more (fetch : fetcher) (start_slug : string) (target_num : Z)
    (st st' : bfs_state) :
  bfs_inv_more start_slug target_num st → loop_cond target_num st = true →
  pass fetch st st' → bfs_inv_more start_slug target_num st'.
Proof.
  intros Him Hc Hpass. pose proof (im_inv _ _ _ Him) as Hinv.
  pose proof (pass_inv _ _ _ Hinv Hpass) as Hinv'.
  apply loop_cond_spec in Hc as [_ Hlen].
  destruct Hpass as
    [current rest E Hv | current rest E Hv Hf
    | current rest sp partners E Hv Hf Hp coll'];
    destruct (inv_current_fresh st current rest Hinv E) as (Hcr & Hrest & Hcv & Hcc);
    destruct Him as [_ Hk Hfe Hfn Hfo Hl Hs]; rewrite E in Hk.
  - done.
  - split; simpl; try done.
    + intros x [Hx|Hx]; apply Hk; [left; by right | by right].
    + intros x. rewrite fetched_app, elem_of_app, Hfe. simpl. set_solver.
    + rewrite fetched_app. simpl. apply NoDup_app. split; [done |].
      split; [| apply NoDup_singleton]. intros x Hx Hx'.
      apply list_elem_of_singleton in Hx' as ->. by apply Hfe in Hx.
    + rewrite fetched_ok_app. simpl. by rewrite app_nil_r.
    + destruct Hs as [[Hc0 Hq]|Hs]; [| by right]. left. split; [done |]. left.
      destruct Hq as [Hq|[Hq _]]; rewrite E in Hq; [done | by injection Hq].
  - subst coll'. rewrite decide_True by done.
    destruct (enqueue_spec (visited st ∪ {[current]}) (collected st ++ [current])
                partners rest) as (added & Hadd & _ & _ & Hin).
    rewrite decide_True in Hinv' by done.
    split; simpl; try done.
    + rewrite Hadd. intros x [Hx|Hx].
      * apply elem_of_app in Hx as [Hx|Hx]; [apply Hk; left; by right |].
        right. apply Hin in Hx as [Hx _]. by eapply parse_partners_kept.
      * apply elem_of_app in Hx as [Hx|Hx]; [apply Hk; by right |].
        apply list_elem_of_singleton in Hx as ->. apply Hk. left. by left.
    + intros x. rewrite fetched_app, elem_of_app, Hfe. simpl. set_solver.
    + rewrite fetched_app. simpl. apply NoDup_app. split; [done |].
      split; [| apply NoDup_singleton]. intros x Hx Hx'.
      apply list_elem_of_singleton in Hx' as ->. by apply Hfe in Hx.
    + rewrite fetched_ok_app. simpl. by rewrite Hfo.
    + rewrite length_app. simpl. lia.
    + right. destruct Hs as [[Hc0 Hq]|[l Hs]].
      * destruct Hq as [Hq|[Hq _]]; rewrite E in Hq; [done |].
        injection Hq as -> _. rewrite Hc0. by exists [].
      * rewrite Hs. by exists (l ++ [current]).
Qed.

Lemma bfs_reach_inv_more (fetch : fetcher) (target_num : Z) (start_slug : string)
    (st : bfs_state) :
  bfs_reach fetch target_num start_slug st →
  bfs_inv_more start_slug target_num st.
Proof.
  induction 1 as [|st st' _ IH Hc Hb|st st' _ IH Hc Hb].
  - apply bfs_inv_more_init.
  - eapply pass_inv_more; [exact IH | exact Hc |]. eapply loop_body_pass. by rewrite Hb.
  - eapply pass_inv_more; [exact IH | exact Hc |]. eapply loop_body_pass. by rewrite Hb.
Qed.

Lemma loop_body_break (fetch : fetcher) (target_num : Z) (st st' : bfs_state) :
  loop_body fetch target_num st = Break st' → loop_cond target_num st' = false.
Proof.
  unfold loop_body. destruct (queue st) as [|current rest]; [done |].
  case_decide; [done |].
  destruct (fetch (trace st) current) as [sp|]; [| done].
  destruct (parse_partners_from_history sp) as [partners|]; [| done]. cbv zeta.
  match goal with |- context [if ?b then _ else _] => destruct b eqn:Hb end; [| done].
  intros [= <-]. apply andb_true_iff in Hb as [Hb _].
  apply bool_decide_eq_true in Hb. unfold loop_cond. simpl. rewrite Hb.
  by rewrite bool_decide_eq_true_2.
Qed.

Lemma bfs_loop_final (fetch : fetcher) (target_num : Z) (fuel : nat)
    (st st' : bfs_state) :
  bfs_loop fetch target_num fuel st = Some (Ok st') →
  loop_cond target_num st' = false.
Proof.
  revert st. induction fuel as [|fuel IH]; intros st; simpl;
    destruct (loop_cond target_num st) eqn:Hc; try done.
  - by intros [= <-].
  - destruct (loop_body fetch target_num st) as [st1|st1|] eqn:Hb; [| | done].
    + apply IH.
    + intros [= <-]. by eapply loop_body_break.
  - by intros [= <-].
Qed.

Lemma find_dating_links_bfs_inv (fetch : fetcher) (start_slug : string)
    (target_num : Z) (fuel : nat) (result : list string) :
  find_dating_links_bfs fetch start_slug target_num fuel = Some (Ok result) →
  ∃ st, bfs_loop fetch target_num fuel (bfs_init start_slug) = Some (Ok st)
        ∧ bfs_reach fetch target_num start_slug st
        ∧ result = slice_to (collected st) target_num.
Proof.
  unfold find_dating_links_bfs.
  destruct (bfs_loop fetch target_num fuel (bfs_init start_slug))
    as [[st|]|] eqn:Hrun; [| done | done].
  intros [= <-]. exists st. split; [done |]. split; [| done].
  eapply bfs_loop_reach; [apply reach_init | exact Hrun].
Qed.

Lemma slice_to_all {A} (l : list A) (n : Z) :
  Z.of_nat (length l) ≤ Z.max 0 n → slice_to l n = l.
Proof.
  intros H. unfold slice_to. destruct (0 <=? n) eqn:E.
  - apply Z.leb_le in E. apply take_ge. lia.
  - apply Z.leb_gt in E. apply take_ge. lia.
Qed.

(** X1: the traversal returns at most [max(0, target_num)] slugs, and the final
    slice [collected[:target_num]] never drops a collected slug: the loop stops
    as soon as the target is reached. *)
Theorem bfs_result_is_collected_within_target
    (fetch : fetcher) (start_slug : string) (target_num : Z) (fuel : nat)
    (result : list string) :
  find_dating_links_bfs fetch start_slug target_num fuel = Some (Ok result) →
  Z.of_nat (length result) ≤ Z.max 0 target_num
  ∧ ∃ st, bfs_loop fetch target_num fuel (bfs_init start_slug) = Some (Ok st)
          ∧ result = collected st.
Proof.
  intros H. apply find_dating_links_bfs_inv in H as (st & Hrun & Hr & ->).
  apply bfs_reach_inv_more in Hr as [_ _ _ _ _ Hl _].
  rewrite slice_to_all by done. split; [done |]. by exists st.
Qed.

(** X2: when the loop ends, either the queue is exhausted or exactly
    [max(0, target_num)] slugs have been collected. *)
Theorem bfs_ends_exhausted_or_on_target
    (fetch : fetcher) (start_slug : string) (target_num : Z) (fuel : nat)
    (st : bfs_state) :
  bfs_loop fetch target_num fuel (bfs_init start_slug) = Some (Ok st) →
  queue st = [] ∨ Z.of_nat (length (collected st)) = Z.max 0 target_num.
Proof.
  intros Hrun. pose proof (bfs_loop_final _ _ _ _ _ Hrun) as Hc.
  eapply bfs_loop_reach in Hrun; [| apply reach_init].
  apply bfs_reach_inv_more in Hrun as [_ _ _ _ _ Hl _].
  apply not_true_iff_false in Hc. rewrite loop_cond_spec in Hc.
  destruct (queue st) as [|q qs]; [by left | right].
  destruct (decide (Z.of_nat (length (collected st)) < target_num)); [| lia].
  exfalso. apply Hc. by split.
Qed.

(** X3: every slug the traversal returns is the start slug or a slug the
    extractor keeps: not empty and classified as an individual. *)
Theorem bfs_result_slugs_are_individuals
    (fetch : fetcher) (start_slug : string) (target_num : Z) (fuel : nat)
    (result : list string) :
  find_dating_links_bfs fetch start_slug target_num fuel = Some (Ok result) →
  ∀ x, x ∈ result →
       x = start_slug ∨ (is_empty x = false ∧ is_individual_slug x = true).
Proof.
  intros H x Hx. apply find_dating_links_bfs_inv in H as (st & _ & Hr & ->).
  apply bfs_reach_inv_more in Hr as [_ Hk _ _ _ Hl _].
  rewrite slice_to_all in Hx by done. apply Hk. by right.
Qed.

(** X4: a non-empty result starts with the start slug. *)
Theorem bfs_result_starts_with_seed
    (fetch : fetcher) (start_slug : string) (target_num : Z) (fuel : nat)
    (result : list string) :
  find_dating_links_bfs fetch start_slug target_num fuel = Some (Ok result) →
  result = [] ∨ ∃ l, result = start_slug :: l.
Proof.
  intros H. apply find_dating_links_bfs_inv in H as (st & _ & Hr & ->).
  apply bfs_reach_inv_more in Hr as [_ _ _ _ _ Hl Hs].
  rewrite slice_to_all by done. destruct Hs as [[-> _]|Hs]; [by left | by right].
Qed.

(** X5: in every state the loop passes through, no slug has been fetched twice,
    the fetched slugs are the visited ones, and the slugs whose fetch
    succeeded are, in order, the collected ones. *)
Theorem bfs_fetches_each_slug_once
    (fetch : fetcher) (start_slug : string) (target_num : Z) (st : bfs_state) :
  bfs_reach fetch target_num start_slug st →
  NoDup (fetched (trace st))
  ∧ (∀ x, x ∈ fetched (trace st) ↔ x ∈ visited st)
  ∧ fetched_ok (trace st) = collected st.
Proof. intros Hr. by apply bfs_reach_inv_more in Hr as [_ _ Hf Hn Ho _ _]. Qed.

(** X6: the defensive tests of the loop never fire: whenever the loop body runs,
    the dequeued slug is neither visited (line 40) nor collected (line 54);
    and the [break] of line 66 is only taken in a state in which the loop
    condition is false anyway. *)
Theorem bfs_defensive_tests_never_fire
    (fetch : fetcher) (start_slug : string) (target_num : Z) (st : bfs_state) :
  bfs_reach fetch target_num start_slug st → loop_cond target_num st = true →
  (∃ current rest, queue st = current :: rest
                   ∧ (current ∉ visited st) ∧ (current ∉ collected st))
  ∧ ∀ st', loop_body fetch target_num st = Break st' →
           loop_cond target_num st' = false.
Proof.
  intros Hr Hc. split; [| intros st'; apply loop_body_break].
  apply bfs_reach_inv in Hr. apply loop_cond_spec in Hc as [Hq _].
  destruct (queue st) as [|current rest] eqn:E; [done |].
  destruct (inv_current_fresh st current rest Hr E) as (_ & _ & Hv & Hcc).
  by exists current, rest.
Qed.

(** X7: for a target that is not positive the traversal fetches nothing and
    returns the empty list, whatever the fuel. *)
Theorem bfs_nonpositive_target_fetches_nothing
    (fetch : fetcher) (start_slug : string) (target_num : Z) (fuel : nat) :
  target_num ≤ 0 →
  bfs_loop fetch target_num fuel (bfs_init start_slug)
  = Some (Ok (bfs_init start_slug))
  ∧ find_dating_links_bfs fetch start_slug target_num fuel = Some (Ok []).
Proof.
  intros Ht.
  assert (bfs_loop fetch target_num fuel (bfs_init start_slug)
          = Some (Ok (bfs_init start_slug))) as Hrun.
  { apply bfs_loop_done. apply not_true_iff_false. rewrite loop_cond_spec.
    simpl. lia. }
  split; [done |]. unfold find_dating_links_bfs. rewrite Hrun. simpl.
  by rewrite slice_to_nil.
Qed.

(** ** Slugs from hrefs, continued *)

Lemma split_parts_no_sep (sep : ascii) (s p : string) :
  p ∈ split sep s → has_char sep p = false.
Proof.
  revert p. induction s as [|c t IH]; intros p; simpl.
  - intros Hp. by apply list_elem_of_singleton in Hp as ->.
  - case_decide as Hc.
    + intros Hp. apply elem_of_cons in Hp as [->|Hp]; [done | by apply IH].
    + destruct (split sep t) as [|q qs].
      * intros Hp. apply list_elem_of_singleton in Hp as ->. simpl.
        by rewrite decide_False.
      * intros Hp. apply elem_of_cons in Hp as [->|Hp].
        -- simpl. rewrite decide_False by done. apply IH. by left.
        -- apply IH. by right.
Qed.

(** X8: A slug returned by [safe_slug_from_href] never contains a slash. *)
Theorem safe_slug_has_no_slash (href s : string) :
  safe_slug_from_href href = Ok (Some s) → has_char "/" s = false.
Proof.
  unfold safe_slug_from_href. destruct (is_empty href); [done |].
  destruct (urlparse_path href) as [parsed|]; [| done]. simpl.
  set (path := strip is_slash (if negb (is_empty parsed) then parsed else href)).
  destruct (is_empty path); [done |].
  assert (∀ x, last (split "/" path) = Some x → has_char "/" x = false) as Hlast.
  { intros x Hx. apply (split_parts_no_sep "/" path).
    apply last_Some in Hx as [l ->]. set_solver. }
  destruct (split "/" path) as [|p0 [|p1 rest]] eqn:Es.
  - done.
  - intros [= <-]. by apply Hlast.
  - case_bool_decide.
    + intros [= <-]. apply (split_parts_no_sep "/" path). rewrite Es. set_solver.
    + intros [= Hl]. apply Hlast. exact Hl.
Qed.

Lemma str_filter_id (p : ascii → bool) (s : string) :
  str_forall p s = true → str_filter p s = s.
Proof.
  induction s as [|c t IH]; simpl; [done |].
  intros H. apply andb_true_iff in H as [-> H]. by rewrite IH.
Qed.

Lemma str_forall_impl (p q : ascii → bool) (s : string) :
  (∀ c, p c = true → q c = true) → str_forall p s = true → str_forall q s = true.
Proof.
  intros Hpq. induction s as [|c t IH]; simpl; [done |].
  intros H. apply andb_true_iff in H as [Hc H]. by rewrite (Hpq c Hc), IH.
Qed.

Lemma has_char_forall (x : ascii) (p : ascii → bool) (s : string) :
  p x = false → str_forall p s = true → has_char x s = false.
Proof.
  intros Hx. induction s as [|c t IH]; simpl; [done |].
  intros Hs. apply andb_true_iff in Hs as [Hc Hs].
  case_decide as Hd; [congruence | by apply IH].
Qed.

Lemma before_id (sep : ascii) (s : string) :
  has_char sep s = false → before sep s = s.
Proof.
  induction s as [|c t IH]; simpl; [done |].
  case_decide as Hd; [done |]. intros Hs. by rewrite IH.
Qed.

Lemma split_id (sep : ascii) (s : string) :
  has_char sep s = false → split sep s = [s].
Proof.
  induction s as [|c t IH]; simpl; [done |].
  case_decide as Hd; [done |]. intros Hs. by rewrite IH.
Qed.

Lemma rstrip_id (p : ascii → bool) (s : string) :
  str_forall (λ c, negb (p c)) s = true → rstrip p s = s.
Proof.
  induction s as [|c t IH]; simpl; [done |].
  intros H. apply andb_true_iff in H as [Hc H]. apply negb_true_iff in Hc.
  by rewrite IH, Hc, andb_false_r.
Qed.

Lemma rstrip_cons (p : ascii → bool) (c : ascii) (s : string) :
  s ≠ EmptyString → rstrip p s = s → rstrip p (String c s) = String c s.
Proof. intros Hne Hs. simpl. rewrite Hs. by destruct s. Qed.

Lemma split_scheme_not_alpha (c : ascii) (t : string) :
  is_alpha c = false → split_scheme (String c t) = (EmptyString, String c t).
Proof.
  intros Hc. unfold split_scheme. destruct (after ":" (String c t)); [| done].
  by rewrite Hc, andb_false_r.
Qed.

Section round_trip.
Variable s : string.
Hypothesis s_nonempty : s ≠ EmptyString.
Hypothesis s_chars : str_forall is_slug_char s = true.

Lemma slug_no_char (x : ascii) : is_slug_char x = false → has_char x s = false.
Proof. intros Hx. by eapply has_char_forall. Qed.

Lemma slug_filter_id :
  str_filter (λ c, negb (is_unsafe_url_byte c)) s = s.
Proof.
  apply str_filter_id. eapply str_forall_impl; [| exact s_chars].
  intros c Hc. unfold is_slug_char in Hc. by destruct (is_unsafe_url_byte c).
Qed.

Lemma slug_rstrip_id : rstrip is_slash s = s.
Proof.
  apply rstrip_id. eapply str_forall_impl; [| exact s_chars].
  intros c. unfold is_slug_char, is_netloc_delim, is_slash.
  destruct (bool_decide (c = "/"%char)); simpl; [| done].
  by rewrite andb_false_r.
Qed.

Lemma profile_path_parses :
  urlparse_path ("/dating/" +:+ s) = Ok ("/dating/" +:+ s).
Proof.
  unfold urlparse_path. simpl lstrip. simpl str_filter. rewrite slug_filter_id.
  rewrite split_scheme_not_alpha by done. simpl.
  assert (has_char "#" s = false) as H1 by by apply slug_no_char.
  assert (has_char "?" s = false) as H2 by by apply slug_no_char.
  assert (has_char ";" s = false) as H3 by by apply slug_no_char.
  rewrite (before_id "#" s) by done. rewrite (before_id "?" s) by done.
  simpl. by rewrite H3.
Qed.
End round_trip.

Lemma profile_url_parses (s : string) :
  str_forall is_slug_char s = true →
  urlparse_path ("https://www.whosdatedwho.com/dating/" +:+ s)
  = Ok ("/dating/" +:+ s).
Proof.
  intros Hs. unfold urlparse_path. simpl lstrip. simpl str_filter.
  rewrite slug_filter_id by done. unfold split_scheme. simpl.
  assert (has_char "#" s = false) as H1 by by apply slug_no_char.
  assert (has_char "?" s = false) as H2 by by apply slug_no_char.
  assert (has_char ";" s = false) as H3 by by apply slug_no_char.
  rewrite (before_id "#" s) by done. rewrite (before_id "?" s) by done.
  simpl. by rewrite H3.
Qed.

Lemma profile_path_slug (s : string) :
  s ≠ EmptyString → str_forall is_slug_char s = true →
  (let path := strip is_slash ("/dating/" +:+ s) in
   if is_empty path then Ok None
   else match split "/" path with
        | p0 :: p1 :: _ =>
            if bool_decide (lower p0 = "dating") then Ok (Some p1)
            else Ok (last (split "/" path))
        | _ => Ok (last (split "/" path))
        end) = Ok (Some s).
Proof.
  intros Hne Hs. cbv zeta.
  assert (strip is_slash ("/dating/" +:+ s) = "dating/" +:+ s) as ->.
  { unfold strip. simpl lstrip. simpl String.append.
    repeat (apply rstrip_cons; [done |]). by apply slug_rstrip_id. }
  assert (has_char "/" s = false) as H0 by by apply slug_no_char.
  simpl. rewrite (split_id "/" s) by done. reflexivity.
Qed.

(** X9: round trip of a slug through its profile link: for a non-empty slug made
    of characters other than slash, question mark, hash, semicolon, TAB, LF and
    CR, both the href [/dating/<slug>] and the profile URL resolve back to the
    slug. *)
Theorem safe_slug_of_profile_link (s : string) :
  s ≠ EmptyString → str_forall is_slug_char s = true →
  safe_slug_from_href ("/dating/" +:+ s) = Ok (Some s)
  ∧ safe_slug_from_href ("https://www.whosdatedwho.com/dating/" +:+ s) = Ok (Some s).
Proof.
  intros Hne Hs. split; unfold safe_slug_from_href.
  - rewrite profile_path_parses by done. simpl is_empty. cbv iota. simpl res_bind.
    cbv iota. by apply profile_path_slug.
  - rewrite profile_url_parses by done. simpl is_empty. cbv iota. simpl res_bind.
    cbv iota. by apply profile_path_slug.
Qed.

(** ** Partners of a page *)

Lemma history_slugs_elem (hrefs slugs : list string) (s : string) :
  history_slugs hrefs = Ok slugs →
  s ∈ slugs ↔ kept_slug s
              ∧ ∃ h, h ∈ hrefs ∧ safe_slug_from_href (strip is_space h) = Ok (Some s).
Proof.
  revert slugs. induction hrefs as [|h hs IH]; intros slugs; simpl.
  - intros [= <-]. split; [intros H; by apply elem_of_nil in H |].
    intros (_ & h & Hh & _). by apply elem_of_nil in Hh.
  - destruct (safe_slug_from_href (strip is_space h)) as [slug|] eqn:Eh; [| done].
    simpl. destruct (history_slugs hs) as [rest|]; [| done]. simpl.
    specialize (IH rest eq_refl).
    assert (s ∈ rest ∨ (slug = Some s ∧ kept_slug s)
            ↔ kept_slug s
              ∧ ∃ h', h' ∈ h :: hs
                      ∧ safe_slug_from_href (strip is_space h') = Ok (Some s)) as Hiff.
    { rewrite IH. split.
      - intros [(Hk & h' & Hh' & E)|[-> Hk]].
        + split; [done |]. exists h'. split; [by right | done].
        + split; [done |]. exists h. split; [by left | done].
      - intros (Hk & h' & Hh' & E). apply elem_of_cons in Hh' as [->|Hh'].
        + right. rewrite Eh in E. by injection E as ->.
        + left. split; [done |]. by exists h'. }
    rewrite <- Hiff. unfold kept_slug.
    destruct slug as [s0|].
    2: { intros [= <-]. split; [by left | by intros [?|[? _]]]. }
    destruct (is_empty s0) eqn:He.
    { intros [= <-]. split; [by left |]. intros [?|[[= ->] [? _]]]; [done | congruence]. }
    destruct (is_individual_slug s0) eqn:Hi; simpl; intros [= <-].
    + rewrite elem_of_cons. split.
      * intros [->|?]; [by right | by left].
      * intros [?|[[= ->] _]]; [by right | by left].
    + split; [by left |]. intros [?|[[= ->] [_ ?]]]; [done | congruence].
Qed.

Lemma history_slugs_raises (hrefs : list string) :
  history_slugs hrefs = Raised
  ↔ ∃ h, h ∈ hrefs ∧ safe_slug_from_href (strip is_space h) = Raised.
Proof.
  induction hrefs as [|h hs IH]; simpl.
  - split; [done |]. intros (h & Hh & _). by apply elem_of_nil in Hh.
  - destruct (safe_slug_from_href (strip is_space h)) as [slug|] eqn:Eh; simpl.
    + destruct (history_slugs hs) as [rest|]; simpl.
      * split.
        -- destruct slug as [s0|]; [| done].
           destruct (is_empty s0); [done |].
           by destruct (is_individual_slug s0).
        -- intros (h' & Hh' & E). apply elem_of_cons in Hh' as [->|Hh'];
             [congruence |].
           destruct IH as [_ IH]. by discriminate IH; exists h'.
      * split; [| done]. intros _. destruct IH as [IH _].
        destruct (IH eq_refl) as (h' & Hh' & E). exists h'. split; [by right | done].
    + split; [| done]. intros _. exists h. split; [by left | done].
Qed.

Lemma history_slugs_omap (hrefs slugs : list string) :
  history_slugs hrefs = Ok slugs →
  slugs = omap (λ h, resolved_slug (strip is_space h)) hrefs.
Proof.
  set (f := λ h, resolved_slug (strip is_space h)).
  revert slugs. induction hrefs as [|h hs IH]; intros slugs.
  - simpl. by intros [= <-].
  - change (omap f (h :: hs))
      with (match f h with Some y => y :: omap f hs | None => omap f hs end).
    cbn [history_slugs]. unfold f at 1, resolved_slug.
    destruct (safe_slug_from_href (strip is_space h)) as [slug|]; [| done].
    cbn [res_bind].
    destruct (history_slugs hs) as [rest|]; [| done]. cbn [res_bind].
    rewrite <- (IH rest eq_refl).
    destruct slug as [s0|]; [| by intros [= <-]].
    destruct (is_empty s0); [by intros [= <-] |].
    destruct (is_individual_slug s0); cbn [negb andb]; by intros [= <-].
Qed.

(** What precedes a slug among the first occurrences is what precedes its
    first occurrence. *)
Lemma unique_from_first (seen : gset string) (ps front : list string) (p : string)
    (back : list string) :
  unique_from seen ps = front ++ p :: back →
  ∃ l1 l2, ps = l1 ++ p :: l2 ∧ (p ∉ l1)
           ∧ ∀ a, a ∈ front ↔ a ∈ l1 ∧ a ∉ seen.
Proof.
  revert seen front. induction ps as [|q t IH]; intros seen front; simpl.
  - by destruct front.
  - case_decide as Hq.
    + destruct front as [|f front]; simpl.
      * intros [= -> _]. exists [], t. split; [done |].
        split; [by apply not_elem_of_nil |]. intros a. split.
        -- intros H. by apply elem_of_nil in H.
        -- intros [H _]. by apply elem_of_nil in H.
      * intros [= <- H].
        assert (p ∈ unique_from (seen ∪ {[q]}) t) as Hp
          by (rewrite H; set_solver).
        apply (proj2 (proj2 (unique_from_spec _ _))) in Hp as [_ Hp].
        apply IH in H as (l1 & l2 & -> & Hl1 & Hfront).
        exists (q :: l1), l2. split; [done |].
        split; [set_solver |]. intros a. rewrite !elem_of_cons, Hfront.
        destruct (decide (a = q)) as [->|]; set_solver.
    + intros H.
      assert (p ∈ unique_from seen t) as Hp by (rewrite H; set_solver).
      apply (proj2 (proj2 (unique_from_spec _ _))) in Hp as [_ Hp].
      apply IH in H as (l1 & l2 & -> & Hl1 & Hfront).
      exists (q :: l1), l2. split; [done |].
      split; [set_solver |]. intros a. rewrite elem_of_cons, Hfront.
      set_solver.
Qed.

(** X10: on a page whose links are ASCII text, the partners have no duplicates;
    they are exactly the non-empty individual slugs that the links of the
    dating-history container resolve to, in the order of their first link: the
    partners in front of a partner are the slugs of the links in front of its
    first link; a page without the container has none; and the parser raises
    exactly when the href of one of the links does. *)
Theorem parse_partners_unique_individuals_in_order (sp : soup) :
  ascii_links sp →
  match parse_partners_from_history sp with
  | Ok partners =>
      NoDup partners
      ∧ (history_hrefs sp = None → partners = [])
      ∧ (∀ s, s ∈ partners
              ↔ (is_empty s = false ∧ is_individual_slug s = true)
                ∧ ∃ hrefs h, history_hrefs sp = Some hrefs ∧ h ∈ hrefs
                             ∧ safe_slug_from_href (strip is_space h) = Ok (Some s))
      ∧ (∀ hrefs, history_hrefs sp = Some hrefs →
           let slugs := omap (λ h, resolved_slug (strip is_space h)) hrefs in
           history_slugs hrefs = Ok slugs
           ∧ partners `sublist_of` slugs
           ∧ (∀ front p back, partners = front ++ p :: back →
                ∃ l1 l2, slugs = l1 ++ p :: l2 ∧ (p ∉ l1)
                         ∧ ∀ a, a ∈ front ↔ a ∈ l1)
           ∧ ∀ h, h ∈ hrefs → safe_slug_from_href (strip is_space h) ≠ Raised)
  | Raised =>
      ∃ hrefs h, history_hrefs sp = Some hrefs ∧ h ∈ hrefs
                 ∧ safe_slug_from_href (strip is_space h) = Raised
  end.
Proof.
  intros _.
  unfold parse_partners_from_history. destruct (history_hrefs sp) as [hrefs|].
  - destruct (history_slugs hrefs) as [slugs|] eqn:E; simpl.
    + destruct (unique_from_spec ∅ slugs) as (Hsub & Hnd & Hin).
      split; [done |]. split; [done |]. split.
      * intros s. rewrite Hin, (history_slugs_elem hrefs slugs s E). split.
        -- intros [(Hk & h & Hh & Es) _]. split; [done |]. by exists hrefs, h.
        -- intros (Hk & hrefs' & h & [= <-] & Hh & Es).
           split; [| set_solver]. split; [done |]. by exists h.
      * intros hrefs' [= <-]. cbv zeta.
        rewrite <- (history_slugs_omap hrefs slugs E).
        split; [done |]. split; [done |]. split.
        -- intros front p back H.
           apply unique_from_first in H as (l1 & l2 & -> & Hl1 & Hfront).
           exists l1, l2. split; [done |]. split; [done |].
           intros a. rewrite Hfront. set_solver.
        -- intros h Hh Er.
           assert (history_slugs hrefs = Raised) as E'
             by (apply history_slugs_raises; by exists h).
           congruence.
    + apply history_slugs_raises in E as (h & Hh & Er). by exists hrefs, h.
  - split; [constructor |]. split; [done |]. split.
    + intros s. split; [intros H; by apply elem_of_nil in H |].
      intros (_ & hrefs & h & ? & _). done.
    + intros hrefs ?. done.
Qed.

(** ** Letter case and signs *)

Lemma lower_char_idemp (c : ascii) : lower_char (lower_char c) = lower_char c.
Proof. destruct c as [[] [] [] [] [] [] [] []]; reflexivity. Qed.

Lemma lower_idemp (s : string) : lower (lower s) = lower s.
Proof.
  induction s as [|c t IH]; simpl; [done |]. by rewrite lower_char_idemp, IH.
Qed.

Lemma lower_is_empty (s : string) : is_empty (lower s) = is_empty s.
Proof. by destruct s. Qed.

(** X11: the classification of a slug does not depend on the case of its letters. *)
Theorem is_individual_slug_ignores_case (s t : string) :
  lower s = lower t → is_individual_slug s = is_individual_slug t.
Proof.
  intros H. unfold is_individual_slug.
  rewrite <- (lower_is_empty s), <- (lower_is_empty t), H. done.
Qed.

Lemma is_individual_slug_ignores_case_witness :
  is_individual_slug "Dylan-Sprouse" = is_individual_slug "dylan-SPROUSE".
Proof. apply is_individual_slug_ignores_case. reflexivity. Defined.

Lemma int_of_digits_from_nonneg (acc : Z) (s : string) :
  0 ≤ acc → 0 ≤ int_of_digits_from acc s.
Proof.
  revert acc. induction s as [|c t IH]; intros acc Hacc; simpl; [done |].
  apply IH. unfold digit_value. lia.
Qed.

(** X12: the numbers of a facts block are never negative, and on a text of ASCII
    characters the two parsers read the same number, or raise alike: the
    all-digits test of the age parser changes nothing. *)
Theorem parse_facts_block_nonnegative (sp : soup) :
  (∀ f, parse_facts_block sp = Ok f →
        (∀ n, age f = Some n → 0 ≤ n)
        ∧ (∀ n, relationships_total f = Some n → 0 ≤ n))
  ∧ (∀ text, ascii_text text →
             parse_age (Some text) = parse_relationships_total (Some text)).
Proof.
  assert (∀ box n, parse_relationships_total box = Ok (Some n) → 0 ≤ n) as Hrel.
  { intros [text|] n; simpl; [| done].
    destruct (search_digits text) as [m|]; [| done].
    destruct (py_int_cases m) as [[_ ->] | [_ ->]]; simpl; [done |].
    intros [= <-]. by apply int_of_digits_from_nonneg. }
  split; [| intros text _; apply parse_age_search].
  intros f. unfold parse_facts_block.
  destruct (parse_age (age_fact sp)) as [a|] eqn:Ea; simpl; [| done].
  destruct (parse_relationships_total (rel_fact sp)) as [r|] eqn:Er; simpl; [| done].
  intros [= <-]. simpl. split.
  - intros n ->. destruct (age_fact sp) as [text|]; [| done].
    rewrite parse_age_search in Ea. by apply Hrel in Ea.
  - intros n ->. by apply Hrel in Er.
Qed.

(** ** The pipeline *)

Lemma write_loop_spec (fetch : fetcher) (slugs : list string) (st st' : writer_state) :
  write_loop fetch slugs st = Ok st' →
  ∃ new new_tr,
    fh st' = fh st ++ new
    ∧ written st' = written st + Z.of_nat (length new)
    ∧ (length new ≤ length slugs)%nat
    ∧ wtrace st' = wtrace st ++ new_tr
    ∧ fetched new_tr = slugs
    ∧ length (fetched_ok new_tr) = length new.
Proof.
  revert st. induction slugs as [|slug slugs IH]; intros st; simpl.
  - intros [= <-]. exists [], []. rewrite !app_nil_r. split_and!; try done; simpl; lia.
  - unfold fetch_profile. destruct (fetch (wtrace st) slug) as [sp|].
    + destruct (parse_facts_block sp) as [fs|]; simpl; [| done].
      destruct (parse_partners_from_history sp) as [partners|]; simpl; [| done].
      intros H. apply IH in H as (new & new_tr & Hf & Hw & Hl & Ht & Hfe & Hok).
      simpl in *. eexists (_ :: new), (EFetch slug true :: ESleep :: new_tr).
      rewrite Hf, Hw, Ht, <- !app_assoc. simpl. rewrite Hfe, Hok.
      split_and!; try done; lia.
    + intros H. apply IH in H as (new & new_tr & Hf & Hw & Hl & Ht & Hfe & Hok).
      simpl in *. exists new, (EFetch slug false :: new_tr).
      rewrite Hf, Hw, Ht, <- !app_assoc. simpl. rewrite Hfe, Hok.
      split_and!; try done; lia.
Qed.

(** X13: [write_profiles] fetches every slug once, in the order given; the count it
    returns is the number of records it appended, which is the number of
    fetches that succeeded; in overwrite mode the earlier content of the file
    is gone, in append mode it stays in front. *)
Theorem write_profiles_counts_what_it_writes
    (fetch : fetcher) (slugs : list string) (file : list item) (append : bool)
    (tr : list event) (st : writer_state) :
  write_profiles fetch slugs file append tr = Ok st →
  ∃ new new_tr,
    fh st = (if append then file else []) ++ new
    ∧ written st = Z.of_nat (length new)
    ∧ (length new ≤ length slugs)%nat
    ∧ wtrace st = tr ++ new_tr
    ∧ fetched new_tr = slugs
    ∧ length (fetched_ok new_tr) = length new.
Proof.
  intros H. apply write_loop_spec in H as (new & new_tr & H). simpl in H.
  by exists new, new_tr.
Qed.

(** ** The per-letter collector *)

Lemma letter_loop_spec (count : Z) (anchors slugs : list string)
    (seen : gset string) (slugs' : list string) (seen' : gset string) :
  letter_loop count anchors slugs seen = Ok (slugs', seen') →
  ∃ new, slugs' = slugs ++ new
         ∧ seen' = seen ∪ list_to_set new
         ∧ NoDup new
         ∧ (∀ x, x ∈ new →
                 (x ∉ seen) ∧ kept_slug x
                 ∧ ∃ h, h ∈ anchors ∧ safe_slug_from_href h = Ok (Some x))
         ∧ Z.of_nat (length slugs') ≤ Z.max (Z.of_nat (length slugs) + 1) count.
Proof.
  revert slugs seen. induction anchors as [|href anchors IH]; intros slugs seen; simpl.
  - intros [= <- <-]. exists []. rewrite app_nil_r.
    split_and!; [done | set_solver | constructor | | lia].
    intros x Hx. by apply elem_of_nil in Hx.
  - assert (∀ sl se, letter_loop count anchors sl se = Ok (slugs', seen') →
                     sl = slugs → se = seen →
      ∃ new, slugs' = slugs ++ new ∧ seen' = seen ∪ list_to_set new ∧ NoDup new
        ∧ (∀ x, x ∈ new →
                (x ∉ seen) ∧ kept_slug x
                ∧ ∃ h, h ∈ href :: anchors ∧ safe_slug_from_href h = Ok (Some x))
        ∧ Z.of_nat (length slugs') ≤ Z.max (Z.of_nat (length slugs) + 1) count)
      as Hskip.
    { intros sl se H -> ->. apply IH in H as (new & -> & -> & Hnd & Hin & Hl).
      exists new. split_and!; try done. intros x Hx.
      destruct (Hin x Hx) as (? & ? & h & ? & ?). split_and!; try done.
      exists h. split; [by right | done]. }
    destruct (safe_slug_from_href href) as [slug|] eqn:Eh; [| done]. simpl.
    destruct slug as [s|]; [| by eauto].
    destruct (is_empty s) eqn:He; [by eauto |].
    destruct (is_individual_slug s) eqn:Hi; simpl; [| by eauto].
    case_decide as Hs; [by eauto |].
    destruct (Z.of_nat (length (slugs ++ [s])) >=? count) eqn:Hc.
    + intros [= <- <-]. exists [s]. split_and!; [done | set_solver | apply NoDup_singleton | | ].
      * intros x Hx. apply list_elem_of_singleton in Hx as ->.
        split_and!; try done. exists href. split; [by left | done].
      * rewrite length_app. simpl. lia.
    + intros H. apply IH in H as (new & -> & -> & Hnd & Hin & Hl).
      exists (s :: new). rewrite <- app_assoc. split_and!; [done | set_solver | | | ].
      * constructor; [| done]. intros Hx. apply Hin in Hx as (Hx & _). set_solver.
      * intros x Hx. apply elem_of_cons in Hx as [->|Hx].
        -- split_and!; try done. exists href. split; [by left | done].
        -- destruct (Hin x Hx) as (? & ? & h & ? & ?).
           split_and!; [set_solver | done |]. exists h. split; [by right | done].
      * rewrite Z.geb_leb in Hc. apply Z.leb_gt in Hc.
        rewrite !length_app in *. simpl in *. lia.
Qed.

(** The loop keeps the first new slugs it meets, one at least and, beyond
    one, as many as [count] asks for. *)
Lemma letter_loop_take (count : Z) (anchors slugs : list string)
    (seen : gset string) (slugs' : list string) (seen' : gset string) :
  letter_loop count anchors slugs seen = Ok (slugs', seen') →
  slugs' = slugs ++ take (Z.to_nat (Z.max 1 (count - Z.of_nat (length slugs))))
                         (unique_from seen (omap resolved_slug anchors)).
Proof.
  revert slugs seen. induction anchors as [|href anchors IH]; intros slugs seen; simpl.
  - intros [= <- <-]. by rewrite take_nil, app_nil_r.
  - unfold resolved_slug at 1.
    destruct (safe_slug_from_href href) as [slug|] eqn:Eh; [| done]. simpl.
    destruct slug as [s|]; [| by apply IH].
    destruct (is_empty s) eqn:He; simpl; [by apply IH |].
    destruct (is_individual_slug s) eqn:Hi; simpl; [| by apply IH].
    case_decide as Hs.
    + rewrite decide_False by (intros Hn; by apply Hn). by apply IH.
    + rewrite decide_True by done.
      destruct (Z.of_nat (length (slugs ++ [s])) >=? count) eqn:Hc.
      * intros [= <- <-]. rewrite Z.geb_leb in Hc. apply Z.leb_le in Hc.
        rewrite length_app in Hc. simpl in Hc.
        replace (Z.to_nat (Z.max 1 (count - Z.of_nat (length slugs)))) with 1%nat by lia.
        done.
      * intros H. apply IH in H as ->.
        rewrite Z.geb_leb in Hc. apply Z.leb_gt in Hc.
        rewrite length_app in *. simpl in *.
        replace (Z.to_nat (Z.max 1 (count - Z.of_nat (length slugs))))
          with (S (Z.to_nat (Z.max 1 (count - Z.of_nat (length slugs + 1))))) by lia.
        simpl. by rewrite <- app_assoc.
Qed.

(** X14: [fetch_letter_slugs] returns the first [max(1, count)] new slugs of the
    letter page: of the non-empty individual slugs that its links resolve to,
    in page order, those not seen before the call and not met earlier on the
    page, cut after [count] of them and never before the first, so that for
    [count <= 0] the first new slug is still returned.  They are pairwise
    distinct; the seen set grows by exactly these slugs; and when the fetch
    fails the call returns the empty list and the seen set is as before. *)
Theorem fetch_letter_slugs_returns_new_individuals
    (fetch : fetcher) (letter : string) (count : Z) (seen_slugs : gset string)
    (tr : list event) (slugs : list string) (seen' : gset string)
    (tr' : list event) :
  fetch_letter_slugs fetch letter count seen_slugs tr = (Ok (slugs, seen'), tr') →
  ((∀ sp, fetch tr letter = Some sp →
      let new_slugs := unique_from seen_slugs (omap resolved_slug (listing_hrefs sp)) in
      slugs = take (Z.to_nat (Z.max 1 count)) new_slugs
      ∧ (∀ first others, count ≤ 0 → new_slugs = first :: others → slugs = [first])))
  ∧ NoDup slugs
  ∧ Z.of_nat (length slugs) ≤ Z.max 1 count
  ∧ seen' = seen_slugs ∪ list_to_set slugs
  ∧ (∀ x, x ∈ slugs →
          (x ∉ seen_slugs) ∧ is_empty x = false ∧ is_individual_slug x = true
          ∧ ∃ sp h, fetch tr letter = Some sp ∧ h ∈ listing_hrefs sp
                    ∧ safe_slug_from_href h = Ok (Some x))
  ∧ (fetch tr letter = None → slugs = [] ∧ seen' = seen_slugs).
Proof.
  unfold fetch_letter_slugs. destruct (fetch tr letter) as [sp|].
  - destruct (letter_loop count (listing_hrefs sp) [] seen_slugs)
      as [[sl se]|] eqn:E; [| done].
    intros [= <- <- <-]. split.
    { intros sp' [= <-]. cbv zeta. apply letter_loop_take in E. simpl in E.
      rewrite Z.sub_0_r in E. split; [exact E |].
      intros first others Hc Hn. rewrite E, Hn.
      by replace (Z.to_nat (Z.max 1 count)) with 1%nat by lia. }
    apply letter_loop_spec in E as (new & -> & -> & Hnd & Hin & Hl).
    simpl in *. split_and!; try done.
    intros x Hx. destruct (Hin x Hx) as (? & [? ?] & h & ? & ?).
    split_and!; try done. by exists sp, h.
  - intros [= <- <- <-]. split; [done |]. split; [constructor |].
    split; [simpl; lia |].
    split; [set_solver |]. split; [| done].
    intros x Hx. by apply elem_of_nil in Hx.
Qed.

(** ** The two scripts, end to end *)

Lemma fetch_letter_slugs_trace (fetch : fetcher) (letter : string) (count : Z)
    (seen : gset string) (tr : list event) (r : list string * gset string)
    (tr' : list event) :
  fetch_letter_slugs fetch letter count seen tr = (Ok r, tr') →
  ∃ new_tr, tr' = tr ++ new_tr ∧ fetched new_tr = [letter].
Proof.
  unfold fetch_letter_slugs. destruct (fetch tr letter) as [sp|].
  - destruct (letter_loop count (listing_hrefs sp) [] seen); [| done].
    intros [= _ <-]. by eexists.
  - intros [= _ <-]. by eexists.
Qed.

Lemma collect_letters_spec (fetch : fetcher) (ls : list string) (n : Z)
    (all_slugs : list string) (seen : gset string) (tr : list event)
    (all' : list string) (seen' : gset string) (tr' : list event) :
  collect_letters fetch ls n all_slugs seen tr = (Ok (all', seen'), tr') →
  ∃ new new_tr,
    all' = all_slugs ++ new
    ∧ seen' = seen ∪ list_to_set new
    ∧ NoDup new
    ∧ (∀ x, x ∈ new → (x ∉ seen) ∧ kept_slug x)
    ∧ Z.of_nat (length new) ≤ Z.of_nat (length ls) * Z.max 1 n
    ∧ tr' = tr ++ new_tr
    ∧ fetched new_tr = ls.
Proof.
  revert all_slugs seen tr. induction ls as [|letter ls IH];
    intros all_slugs seen tr; simpl.
  - intros [= <- <- <-]. exists [], []. rewrite !app_nil_r.
    split_and!; [done | set_solver | constructor | | simpl; lia | done | done].
    intros x Hx. by apply elem_of_nil in Hx.
  - destruct (fetch_letter_slugs fetch letter n seen tr) as [[[slugs seen1]|] tr1] eqn:E;
      [| done].
    intros H. apply IH in H as (new & new_tr & -> & -> & Hnd & Hin & Hl & -> & Hf).
    destruct (fetch_letter_slugs_trace _ _ _ _ _ _ _ E) as (tr0 & -> & Hf0).
    unfold fetch_letter_slugs in E. destruct (fetch tr letter) as [sp|].
    + destruct (letter_loop n (listing_hrefs sp) [] seen) as [[sl se]|] eqn:El;
        [| done].
      injection E as <- <- _.
      apply letter_loop_spec in El as (new0 & -> & -> & Hnd0 & Hin0 & Hl0).
      simpl in *. exists (new0 ++ new), (tr0 ++ new_tr).
      rewrite <- !app_assoc, fetched_app, Hf0, Hf, list_to_set_app_L.
      split_and!; try done.
      * set_solver.
      * apply NoDup_app. split; [done |]. split; [| done].
        intros x Hx Hx'. apply Hin in Hx' as [Hx' _]. set_solver.
      * intros x Hx. apply elem_of_app in Hx as [Hx|Hx].
        -- destruct (Hin0 x Hx) as (? & ? & _). done.
        -- destruct (Hin x Hx) as (? & ?). split; [set_solver | done].
      * rewrite length_app. lia.
    + injection E as <- <- _. exists new, (tr0 ++ new_tr).
      rewrite <- !app_assoc, fetched_app, Hf0, Hf.
      split_and!; try done. lia.
Qed.

(** X15: [alphabet_collector.main]: a count that is not positive is refused before
    anything is fetched.  Otherwise every letter page is fetched once, in
    order, and then the profile of every collected slug once; the slugs
    collected are pairwise distinct non-empty individuals, at most [26 * n];
    when none is collected the output file is left as it was; when some are,
    the file is replaced by at most as many records. *)
Theorem alphabet_main_collects_distinct_slugs
    (fetch : fetcher) (n : Z) (file : list item) :
  (n ≤ 0 → alphabet_main fetch n file = ArgumentError)
  ∧ ∀ file' tr,
      alphabet_main fetch n file = Finished file' tr →
      ∃ all_slugs,
        NoDup all_slugs
        ∧ Z.of_nat (length all_slugs) ≤ 26 * n
        ∧ (∀ x, x ∈ all_slugs → is_empty x = false ∧ is_individual_slug x = true)
        ∧ fetched tr = letters ++ all_slugs
        ∧ (all_slugs = [] → file' = file)
        ∧ (all_slugs ≠ [] → (length file' ≤ length all_slugs)%nat).
Proof.
  unfold alphabet_main. split.
  - intros Hn. by rewrite (proj2 (Z.leb_le n 0) Hn).
  - intros file' tr. destruct (n <=? 0) eqn:Hn; [done |]. apply Z.leb_gt in Hn.
    destruct (collect_letters fetch letters n [] ∅ []) as [[[all_slugs seen]|] tr0] eqn:E;
      [| done].
    apply collect_letters_spec in E
      as (new & new_tr & -> & _ & Hnd & Hin & Hl & -> & Hf).
    simpl in *. intros Hres. exists new.
    assert (Z.of_nat (length new) ≤ 26 * n) as Hl' by lia.
    case_bool_decide as Hnil.
    + injection Hres as <- <-. rewrite Hf.
      split_and!; try done; [intros x Hx; by apply Hin | by rewrite Hnil].
    + destruct (write_profiles fetch new file false new_tr) as [st|] eqn:Ew; [| done].
      injection Hres as <- <-. unfold write_profiles in Ew.
      apply write_loop_spec in Ew as (recs & wtr & Hfh & _ & Hlen & Hwt & Hfe & _).
      simpl in *. rewrite Hwt, fetched_app, Hf, Hfe, Hfh.
      split_and!; try done. intros x Hx. by apply Hin.
Qed.

(** X16: [snowball_collector.main]: the records of a run are appended after what the
    output file held; there are at most [max(0, target_num)] of them; and after
    the traversal the profile of every collected slug is fetched a second
    time, in the order of collection. *)
Theorem snowball_main_appends_and_fetches_twice
    (fetch : fetcher) (start_slug : string) (target_num : Z) (file : list item)
    (fuel : nat) (file' : list item) (tr : list event) :
  snowball_main fetch start_slug target_num file fuel = Some (Finished file' tr) →
  ∃ st new,
    bfs_loop fetch target_num fuel (bfs_init (normalize_start_slug start_slug))
    = Some (Ok st)
    ∧ file' = file ++ new
    ∧ (length new ≤ length (collected st))%nat
    ∧ Z.of_nat (length new) ≤ Z.max 0 target_num
    ∧ fetched tr = fetched (trace st) ++ collected st
    ∧ ∀ x, x ∈ collected st → x ∈ fetched (trace st).
Proof.
  unfold snowball_main.
  destruct (bfs_loop fetch target_num fuel (bfs_init (normalize_start_slug start_slug)))
    as [[st|]|] eqn:Hrun; [| done | done].
  pose proof (bfs_loop_reach _ _ _ _ _ _ (reach_init _ _ _) Hrun) as Hr.
  apply bfs_reach_inv_more in Hr as [Hinv _ Hfe _ _ Hl _].
  cbv zeta. rewrite slice_to_all by done.
  destruct (write_profiles fetch (collected st) file true (trace st)) as [wst|] eqn:Ew;
    [| done].
  intros [= <- <-]. unfold write_profiles in Ew.
  apply write_loop_spec in Ew as (recs & wtr & Hfh & _ & Hlen & Hwt & Hfw & _).
  simpl in *. exists st, recs. rewrite Hwt, fetched_app, Hfw.
  split_and!; try done; [lia |].
  intros x Hx. apply Hfe. by apply (inv_collected_visited _ Hinv).
Qed.

(** ** The name of a profile *)

Lemma title_from_is_empty (prev : bool) (s : string) :
  is_empty (title_from prev s) = is_empty s.
Proof.
  destruct s as [|c t]; simpl; [done |].
  destruct (is_lower c); [done |]. by destruct (is_upper c).
Qed.

Lemma replace_char_is_empty (a b : ascii) (s : string) :
  is_empty (replace_char a b s) = is_empty s.
Proof. by destruct s. Qed.

Lemma is_empty_false (s : string) : is_empty s = false ↔ s ≠ EmptyString.
Proof. by destruct s. Qed.

(** X17: [parse_name_and_slug] never returns an empty or missing name: the last
    resort is the title-cased slug of the URL, or "unknown".  A non-empty
    [h1] text is the name as it is.  The slug returned is the one the URL
    resolves to, and the function raises exactly when resolving the URL
    does. *)
Theorem parse_name_and_slug_name_never_empty (np : name_parts) (url : string) :
  match parse_name_and_slug np url with
  | Ok (name, slug) =>
      (∃ s, name = Some s ∧ s ≠ EmptyString)
      ∧ safe_slug_from_href url = Ok slug
      ∧ (∀ t, h1_text np = Some t → t ≠ EmptyString → name = Some t)
  | Raised => safe_slug_from_href url = Raised
  end.
Proof.
  unfold parse_name_and_slug. cbv zeta.
  set (n1 := match h1_text np with
             | Some t => if negb (is_empty t) then Some t else None
             | None => None
             end).
  set (n2 := if falsy n1
             then match title_text np with
                  | Some t => Some (strip is_space (strip_site_suffix t))
                  | None => n1
                  end
             else n1).
  set (n3 := if falsy n2
             then match title_class_text np with
                  | Some t => Some t
                  | None => n2
                  end
             else n2).
  assert (∀ t, h1_text np = Some t → t ≠ EmptyString → n3 = Some t ∧ falsy n3 = false)
    as Hh1.
  { intros t Ht Hne. apply is_empty_false in Hne.
    assert (n1 = Some t) as E1 by (unfold n1; by rewrite Ht, Hne).
    assert (n2 = Some t) as E2 by (unfold n2; by rewrite E1; simpl; rewrite Hne).
    unfold n3. rewrite E2. simpl. by rewrite Hne. }
  destruct (falsy n3) eqn:Hf.
  - destruct (safe_slug_from_href url) as [slug|] eqn:Es; [| done]. simpl.
    assert (∀ t, h1_text np = Some t → t ≠ EmptyString → False) as Hno.
    { intros t Ht Hne. destruct (Hh1 t Ht Hne) as [_ ?]. congruence. }
    destruct slug as [s|]; simpl.
    + destruct (is_empty s) eqn:He; simpl.
      * split; [by exists "unknown" |]. split; [done |]. intros t Ht Hne.
        by destruct (Hno t Ht Hne).
      * split.
        -- eexists. split; [done |]. apply is_empty_false. unfold title.
           by rewrite title_from_is_empty, replace_char_is_empty.
        -- split; [done |]. intros t Ht Hne. by destruct (Hno t Ht Hne).
    + split; [by exists "unknown" |]. split; [done |]. intros t Ht Hne.
      by destruct (Hno t Ht Hne).
  - simpl. destruct (safe_slug_from_href url) as [slug|] eqn:Es; [| done]. simpl.
    split.
    + destruct n3 as [s|]; [| done]. exists s. split; [done |].
      by apply is_empty_false.
    + split; [done |]. intros t Ht Hne. by destruct (Hh1 t Ht Hne).
Qed.

(** ** The profile table *)

Lemma fold_add_row_lookup (rs : list (list cell)) (data : gmap string string)
    (k v : string) :
  fold_left add_row rs data !! k = Some v →
  data !! k = Some v
  ∨ ∃ c0 c1 rest, (c0 :: c1 :: rest) ∈ rs ∧ cell_text c0 = k
                  ∧ cell_text_spaced c1 = v ∧ k ≠ EmptyString.
Proof.
  revert data. induction rs as [|r rs IH]; intros data; simpl; [by left |].
  intros H. apply IH in H as [H|(c0 & c1 & rest & Hin & ?)].
  - unfold add_row in H. destruct r as [|c0 [|c1 rest]]; [by left | by left |].
    destruct (is_empty (cell_text c0)) eqn:He; simpl in H; [by left |].
    destruct (decide (cell_text c0 = k)) as [<-|Hne].
    + rewrite lookup_insert_eq in H. injection H as <-. right.
      exists c0, c1, rest. split; [by left |]. split; [done |]. split; [done |].
      by apply is_empty_false.
    + rewrite lookup_insert_ne in H by done. by left.
  - right. exists c0, c1, rest. split; [by right | done].
Qed.

Lemma fold_add_row_other (rs : list (list cell)) (data : gmap string string)
    (k : string) :
  (∀ d0 d1 more, (d0 :: d1 :: more) ∈ rs → cell_text d0 ≠ k) →
  fold_left add_row rs data !! k = data !! k.
Proof.
  revert data. induction rs as [|r rs IH]; intros data Hno; simpl; [done |].
  rewrite IH by (intros d0 d1 more Hin; apply (Hno d0 d1 more); by right).
  unfold add_row. destruct r as [|c0 [|c1 rest]]; [done | done |].
  destruct (is_empty (cell_text c0)); simpl; [done |].
  rewrite lookup_insert_ne; [done |]. apply (Hno c0 c1 rest). by left.
Qed.

(** X18: [parse_profile_table] reads the first table that mentions "First Name"
    and gives the empty mapping when there is none.  The mapping never has
    the empty key; each of its entries comes from a row of that table with at
    least two cells; and where several rows have the same key the last one
    gives the value. *)
Theorem parse_profile_table_entries (tables : list table) :
  match find (λ t, has_first_name t) tables with
  | None => parse_profile_table tables = ∅
  | Some t =>
      parse_profile_table tables !! EmptyString = None
      ∧ (∀ k v, parse_profile_table tables !! k = Some v →
                ∃ c0 c1 rest, (c0 :: c1 :: rest) ∈ rows t
                              ∧ cell_text c0 = k ∧ cell_text_spaced c1 = v)
      ∧ (∀ rs1 c0 c1 rest rs2,
           rows t = rs1 ++ (c0 :: c1 :: rest) :: rs2 →
           cell_text c0 ≠ EmptyString →
           (∀ d0 d1 more, (d0 :: d1 :: more) ∈ rs2 → cell_text d0 ≠ cell_text c0) →
           parse_profile_table tables !! cell_text c0 = Some (cell_text_spaced c1))
  end.
Proof.
  unfold parse_profile_table.
  destruct (find (λ t, has_first_name t) tables) as [t|]; [| done].
  split; [| split].
  - destruct (fold_left add_row (rows t) ∅ !! EmptyString) as [v|] eqn:E; [| done].
    apply fold_add_row_lookup in E as [E|(? & ? & ? & _ & _ & _ & ?)]; [| done].
    by rewrite lookup_empty in E.
  - intros k v E. apply fold_add_row_lookup in E as [E|(c0 & c1 & rest & ? & ? & ? & _)].
    + by rewrite lookup_empty in E.
    + by exists c0, c1, rest.
  - intros rs1 c0 c1 rest rs2 -> Hne Hlast.
    rewrite fold_left_app. simpl. rewrite fold_add_row_other by done.
    unfold add_row. apply is_empty_false in Hne. rewrite Hne. simpl.
    by rewrite lookup_insert_eq.
Qed.

(** ** The comparison: genders *)

Lemma normalize_gender_label (g : pyval) : normalize_gender g ∈ gender_labels.
Proof.
  unfold normalize_gender, gender_labels.
  destruct g as [|n|s]; [set_solver | |];
    repeat (match goal with |- context [if ?b then _ else _] => destruct b end);
    set_solver.
Qed.

(** X19: [normalize_gender] always answers "male", "female" or "unknown"; it
    leaves these three labels as they are, so it is idempotent, and it reads
    back unchanged the gender that the scraper inferred. *)
Theorem normalize_gender_three_labels (g : pyval) :
  normalize_gender g ∈ ["male"; "female"; "unknown"]
  ∧ normalize_gender (PStr (normalize_gender g)) = normalize_gender g
  ∧ ∀ sp, normalize_gender (PStr (gender_label (infer_gender_from_about sp)))
          = gender_label (infer_gender_from_about sp).
Proof.
  split; [apply normalize_gender_label |]. split.
  - pose proof (normalize_gender_label g) as H. unfold gender_labels in H.
    repeat (apply elem_of_cons in H as [->|H]); [by vm_compute ..|].
    by apply elem_of_nil in H.
  - intros sp. by destruct (infer_gender_from_about sp); vm_compute.
Qed.

(** ** The comparison: ages *)

Lemma digit_value_bounds (c : ascii) : is_digit c = true → 0 ≤ digit_value c ≤ 9.
Proof.
  unfold is_digit, digit_value. intros H. apply andb_true_iff in H as [H1 H2].
  apply Nat.leb_le in H1, H2. lia.
Qed.

Lemma search_digits3_None (s : string) : search_digits3 s = None ↔ no_digit s.
Proof.
  unfold no_digit. induction s as [|c t IH]; simpl; [done |].
  destruct (is_digit c); simpl; [split; done | exact IH].
Qed.

Lemma search_digits3_bound (s m : string) :
  search_digits3 s = Some m → 0 ≤ int_of_digits m < 1000.
Proof.
  induction s as [|c t IH]; simpl; [done |].
  destruct (is_digit c) eqn:Hc; [| exact IH]. intros [= <-].
  pose proof (digit_value_bounds c Hc). unfold int_of_digits. simpl.
  destruct t as [|c1 t1]; simpl; [lia |].
  destruct (is_digit c1) eqn:Hc1; simpl; [| lia].
  pose proof (digit_value_bounds c1 Hc1).
  destruct t1 as [|c2 t2]; simpl; [lia |].
  destruct (is_digit c2) eqn:Hc2; simpl; [| lia].
  pose proof (digit_value_bounds c2 Hc2). lia.
Qed.

Lemma isdigit_not_no_digit (s : string) : isdigit s = true → ¬ no_digit s.
Proof.
  unfold isdigit, no_digit. destruct s as [|c t]; simpl; [done |].
  intros H. apply andb_true_iff in H as [-> _]. done.
Qed.

Lemma take_digits_upto_take (n : nat) (s : string) :
  take_digits_upto n s = str_take n (take_digits s).
Proof.
  revert s. induction n as [|n IH]; intros [|c t]; simpl; try done.
  destruct (is_digit c); simpl; [by rewrite IH | done].
Qed.

Lemma search_digits3_search (s : string) :
  search_digits3 s = str_take 3 <$> search_digits s.
Proof.
  induction s as [|c t IH]; [done |]. cbn [search_digits3 search_digits].
  destruct (is_digit c); [| exact IH]. by rewrite take_digits_upto_take.
Qed.

Lemma str_take_length (n : nat) (s : string) : (String.length (str_take n s) ≤ n)%nat.
Proof.
  revert s. induction n as [|n IH]; intros [|c t]; simpl; try lia.
  specialize (IH t). lia.
Qed.

(** X20: [extract_age] gives back an integer age as it is, so the age the scraper
    wrote is read unchanged.  From a string of ASCII characters, stripped: when
    it is all digits, the number it writes, or an exception when the digits
    are more than [int] converts; otherwise the number written by the first
    three digits at most of its first run of digits, so "Born 1990" gives
    199; and [None] exactly when it holds no digit.  The number is never
    negative. *)
Theorem extract_age_of_int_and_string (s : string) :
  ascii_text s →
  let t := strip is_space s in
  (∀ n, extract_age (PInt n) = Ok (Some n))
  ∧ (isdigit t = true →
     (¬ over_int_limit t → extract_age (PStr s) = Ok (Some (int_of_digits t)))
     ∧ (over_int_limit t → extract_age (PStr s) = Raised))
  ∧ (isdigit t = false →
     ∀ m, first_digit_run t m →
          extract_age (PStr s) = Ok (Some (int_of_digits (str_take 3 m))))
  ∧ (extract_age (PStr s) = Ok None ↔ no_digit t)
  ∧ (∀ n, extract_age (PStr s) = Ok (Some n) →
          0 ≤ n ∧ (isdigit t = false → n < 1000))
  ∧ extract_age (PStr "Born 1990") = Ok (Some 199).
Proof.
  intros _ t. split; [done |].
  assert (∀ m, search_digits3 t = Some m → py_int m = Ok (int_of_digits m)) as Hshort.
  { intros m Hm. apply py_int_short. rewrite search_digits3_search in Hm.
    destruct (search_digits t) as [m'|]; [| done]. injection Hm as <-.
    apply (Nat.le_trans _ 3); [exact (str_take_length 3 m') | lia]. }
  unfold extract_age. simpl py_str. cbv zeta. fold t.
  split_and!; [| | | | reflexivity].
  - intros Hd. assert (is_empty t = false) as -> by by destruct t.
    rewrite Hd. destruct (py_int_cases t) as [[Ho ->] | [Hno ->]]; simpl;
      split; done.
  - intros Hd m Hm. assert (is_empty t = false) as ->.
    { destruct t; [| done]. destruct Hm as (pre & post & Ht & _ & Hm & _).
      destruct pre, m; done. }
    rewrite Hd. apply search_digits_Some in Hm.
    pose proof (search_digits3_search t) as H3. rewrite Hm in H3. simpl in H3.
    rewrite H3, (Hshort _ H3). done.
  - destruct (is_empty t) eqn:He.
    + destruct t; [| done]. split; done.
    + destruct (isdigit t) eqn:Hd.
      * split; [| intros H; by apply isdigit_not_no_digit in Hd].
        by destruct (py_int_cases t) as [[_ ->] | [_ ->]].
      * rewrite <- search_digits3_None.
        destruct (search_digits3 t) as [m|] eqn:Hm; [| done].
        by rewrite (Hshort m eq_refl).
  - intros n. destruct (is_empty t); [done |].
    destruct (isdigit t) eqn:Hd.
    + destruct (py_int_cases t) as [[_ ->] | [_ ->]]; simpl; [done |].
      intros [= <-]. split; [by apply int_of_digits_from_nonneg | done].
    + destruct (search_digits3 t) as [m|] eqn:Hm; [| done].
      rewrite (Hshort m eq_refl). intros [= <-].
      apply search_digits3_bound in Hm. split; [lia | intros _; lia].
Qed.

(** ** The comparison: counts *)

Lemma analyze_step_counts (genders : gmap string nat) (ages : list Z)
    (r : sample_record) (genders' : gmap string nat) (ages' : list Z) :
  analyze_step (genders, ages) r = Ok (genders', ages') →
  three_counts genders' = S (three_counts genders)
  ∧ ((∀ l, is_Some (genders !! l) → l ∈ gender_labels) →
     ∀ l, is_Some (genders' !! l) → l ∈ gender_labels)
  ∧ (length ages ≤ length ages' ≤ S (length ages))%nat.
Proof.
  unfold analyze_step.
  set (label := normalize_gender (record_gender r)).
  assert (label ∈ gender_labels) as Hl by apply normalize_gender_label.
  set (g1 := <[label := S (default O (genders !! label))]> genders).
  assert (three_counts g1 = S (three_counts genders)) as Hsum.
  { unfold three_counts, g1. unfold gender_labels in Hl.
    repeat (apply elem_of_cons in Hl as [->|Hl]);
      [| | | by apply elem_of_nil in Hl];
      rewrite ?lookup_insert_eq, ?lookup_insert_ne by done; simpl; lia. }
  assert ((∀ l, is_Some (genders !! l) → l ∈ gender_labels) →
          ∀ l, is_Some (g1 !! l) → l ∈ gender_labels) as Hdom.
  { intros Hg l. unfold g1. destruct (decide (label = l)) as [<-|Hne]; [done |].
    rewrite lookup_insert_ne by done. apply Hg. }
  destruct (extract_age (default PNone (rec_age r))) as [[age|]|]; simpl; [| | done].
  - intros [= <- <-]. rewrite length_app. simpl. split_and!; try done; lia.
  - match goal with |- context [extract_age ?b] => destruct (extract_age b) as [[m|]|] end;
      simpl; [| | done].
    + destruct ((0 <? m) && (m <? 120)); intros [= <- <-];
        rewrite ?length_app; simpl; split_and!; try done; lia.
    + intros [= <- <-]. split_and!; try done; lia.
Qed.

Lemma analyze_step_raises (acc : gmap string nat * list Z) (r : sample_record) :
  analyze_step acc r = Raised →
  extract_age (default PNone (rec_age r)) = Raised
  ∨ extract_age (record_birthday r) = Raised.
Proof.
  unfold analyze_step, record_birthday. destruct acc as [genders ages0].
  destruct (extract_age (default PNone (rec_age r))) as [[age|]|]; simpl;
    [done | | by left].
  match goal with |- context [extract_age ?b] => destruct (extract_age b) as [[m|]|] end;
    simpl; [| done | by right].
  by destruct ((0 <? m) && (m <? 120)).
Qed.

Lemma analyze_loop_counts (records : list sample_record)
    (genders : gmap string nat) (ages : list Z)
    (genders' : gmap string nat) (ages' : list Z) :
  analyze_loop records (genders, ages) = Ok (genders', ages') →
  three_counts genders' = (three_counts genders + length records)%nat
  ∧ ((∀ l, is_Some (genders !! l) → l ∈ gender_labels) →
     ∀ l, is_Some (genders' !! l) → l ∈ gender_labels)
  ∧ (length ages' ≤ length ages + length records)%nat.
Proof.
  revert genders ages. induction records as [|r records IH]; intros genders ages.
  - simpl. intros [= <- <-]. split_and!; try done; lia.
  - cbn [analyze_loop].
    destruct (analyze_step (genders, ages) r) as [[g1 a1]|] eqn:E; [| done].
    apply analyze_step_counts in E as (Hs & Hd & Hl). cbn [res_bind].
    intros H. apply IH in H as (Hs' & Hd' & Hl'). simpl length.
    split_and!; [lia | auto | lia].
Qed.

Lemma analyze_loop_raises (records : list sample_record)
    (acc : gmap string nat * list Z) :
  analyze_loop records acc = Raised →
  ∃ r, r ∈ records
       ∧ (extract_age (default PNone (rec_age r)) = Raised
          ∨ extract_age (record_birthday r) = Raised).
Proof.
  revert acc. induction records as [|r records IH]; intros acc; [done |].
  cbn [analyze_loop]. destruct (analyze_step acc r) as [acc'|] eqn:E; cbn [res_bind].
  - intros H. apply IH in H as (r' & Hr' & H). exists r'. split; [by right | done].
  - intros _. exists r. split; [by left | by apply analyze_step_raises in E].
Qed.


End python.

(** * Examples

    The properties at concrete inputs, and the inputs on which statements of
    the specification fail, on the interpreter of the examples. *)

#[local] Existing Instance default_interpreter.


Lemma C2_scenario_witness :
  NoDup ["a"; "b"; "c"]
  ∧ length ["a"; "b"; "c"] = size (list_to_set (C:=gset string) ["a"; "b"; "c"]).
Proof.
  apply (proj2 (proj2 (C2_collected_has_no_duplicates scenario "a" 4)) 4%nat).
  vm_compute. reflexivity.
Defined.

Lemma C3_scenario_witness :
  (∀ x, x ∈ queue (bfs_init "a") → x ∉ visited (bfs_init "a"))
  ∧ (∀ st', loop_cond 4 (bfs_init "a") = true →
            state_after (loop_body scenario 4 (bfs_init "a")) = Some st' →
            visited (bfs_init "a") ⊆ visited st'
            ∧ ∀ x, x ∈ queue st' → x ∉ visited st').
Proof.
  apply (C3_visited_grows_and_queue_unvisited scenario "a" 4 (bfs_init "a")).
  apply reach_init.
Defined.

Lemma C6_scenario_witness :
  find_dating_links_bfs scenario "d" 4 1 = Some (Ok [])
  ∧ (0 < 4 →
     bfs_loop scenario 4 1 (bfs_init "d")
     = Some (Ok {| queue := []; visited := {["d"]}; collected := [];
                   trace := [EFetch "d" false] |})).
Proof.
  apply (C6_failing_seed_returns_empty scenario "d" 4 1); [reflexivity | lia].
Defined.





Lemma C10_scenario_witness :
  NoDup ["c"; "d"]
  ∧ ∀ vis coll q partners, ∃ added,
      enqueue vis coll q partners = q ++ added
      ∧ NoDup added
      ∧ ∀ p, p ∈ added → (p ∉ q) ∧ (p ∉ vis) ∧ (p ∉ coll).
Proof.
  exact (C10_queue_has_no_duplicates scenario "a" 4 _ scenario_reach_after_two_passes).
Defined.

Lemma bfs_result_is_collected_witness :
  Z.of_nat (length ["a"; "b"; "c"]) ≤ Z.max 0 4
  ∧ ∃ st, bfs_loop scenario 4 4 (bfs_init "a") = Some (Ok st)
          ∧ ["a"; "b"; "c"] = collected st.
Proof.
  apply (bfs_result_is_collected_within_target scenario "a" 4 4).
  vm_compute. reflexivity.
Defined.

Lemma bfs_ends_exhausted_or_on_target_witness :
  queue {| queue := ["c"; "d"]; visited := {["a"; "b"]}; collected := ["a"; "b"];
           trace := [EFetch "a" true; ESleep; EFetch "b" true; ESleep] |} = []
  ∨ Z.of_nat (length ["a"; "b"]) = Z.max 0 2.
Proof.
  apply (bfs_ends_exhausted_or_on_target scenario "a" 2 2
           {| queue := ["c"; "d"]; visited := {["a"; "b"]}; collected := ["a"; "b"];
              trace := [EFetch "a" true; ESleep; EFetch "b" true; ESleep] |}).
  vm_compute. reflexivity.
Defined.

Lemma bfs_result_slugs_are_individuals_witness :
  Forall (λ x, x = "a" ∨ (is_empty x = false ∧ is_individual_slug x = true))
    ["a"; "b"; "c"].
Proof.
  apply Forall_forall.
  apply (bfs_result_slugs_are_individuals scenario "a" 4 4).
  vm_compute. reflexivity.
Defined.

Lemma bfs_result_starts_with_seed_witness :
  ["a"; "b"; "c"] = [] ∨ ∃ l, ["a"; "b"; "c"] = "a" :: l.
Proof.
  apply (bfs_result_starts_with_seed scenario "a" 4 4).
  vm_compute. reflexivity.
Defined.

Lemma bfs_fetches_each_slug_once_witness :
  NoDup (fetched [EFetch "a" true; ESleep; EFetch "b" true; ESleep])
  ∧ (∀ x, x ∈ fetched [EFetch "a" true; ESleep; EFetch "b" true; ESleep]
          ↔ x ∈ ({["a"; "b"]} : gset string))
  ∧ fetched_ok [EFetch "a" true; ESleep; EFetch "b" true; ESleep] = ["a"; "b"].
Proof.
  exact (bfs_fetches_each_slug_once scenario "a" 4 _ scenario_reach_after_two_passes).
Defined.

Lemma bfs_defensive_tests_never_fire_witness :
  (∃ current rest, ["c"; "d"] = current :: rest
                   ∧ (current ∉ ({["a"; "b"]} : gset string))
                   ∧ (current ∉ ["a"; "b"]))
  ∧ ∀ st', loop_body scenario 4
             {| queue := ["c"; "d"]; visited := {["a"; "b"]};
                collected := ["a"; "b"];
                trace := [EFetch "a" true; ESleep; EFetch "b" true; ESleep] |}
           = Break st' → loop_cond 4 st' = false.
Proof.
  apply (bfs_defensive_tests_never_fire scenario "a" 4 _
           scenario_reach_after_two_passes).
  reflexivity.
Defined.

Lemma bfs_nonpositive_target_witness :
  bfs_loop scenario (-3) 5 (bfs_init "a") = Some (Ok (bfs_init "a"))
  ∧ find_dating_links_bfs scenario "a" (-3) 5 = Some (Ok []).
Proof. apply (bfs_nonpositive_target_fetches_nothing scenario "a" (-3) 5). lia. Defined.

Lemma safe_slug_has_no_slash_witness : has_char "/" "dylan-sprouse" = false.
Proof.
  apply (safe_slug_has_no_slash "https://www.whosdatedwho.com/dating/dylan-sprouse?x=1").
  reflexivity.
Defined.

Lemma safe_slug_of_profile_link_witness :
  safe_slug_from_href ("/dating/" +:+ "barbara-palvin") = Ok (Some "barbara-palvin")
  ∧ safe_slug_from_href ("https://www.whosdatedwho.com/dating/" +:+ "barbara-palvin")
    = Ok (Some "barbara-palvin").
Proof.
  apply (safe_slug_of_profile_link "barbara-palvin"); [done | reflexivity].
Defined.

Lemma parse_partners_witness :
  ascii_links (links_page ["c"; "b"; "c"]) ∧ NoDup ["c"; "b"].
Proof.
  assert (ascii_links (links_page ["c"; "b"; "c"])) as H
    by (unfold ascii_links; simpl; repeat constructor).
  split; [exact H |].
  exact (proj1 (parse_partners_unique_individuals_in_order
                  (links_page ["c"; "b"; "c"]) H)).
Defined.

Lemma write_profiles_counts_witness :
  ∃ new new_tr,
    [ {| item_age := None; item_relationships_total := None;
         item_gender_inferred := unknown; item_partners := ["b"; "c"] |} ]
    = (if false then [] else []) ++ new
    ∧ 1 = Z.of_nat (length new)
    ∧ (length new ≤ length ["a"; "d"])%nat
    ∧ [EFetch "a" true; ESleep; EFetch "d" false] = [] ++ new_tr
    ∧ fetched new_tr = ["a"; "d"]
    ∧ length (fetched_ok new_tr) = length new.
Proof.
  apply (write_profiles_counts_what_it_writes scenario ["a"; "d"] [] false []
           {| fh := [ {| item_age := None; item_relationships_total := None;
                         item_gender_inferred := unknown;
                         item_partners := ["b"; "c"] |} ];
              written := 1;
              wtrace := [EFetch "a" true; ESleep; EFetch "d" false] |}).
  vm_compute. reflexivity.
Defined.

Lemma fetch_letter_slugs_witness :
  NoDup ["amy-adams"; "adam-driver"]
  ∧ Z.of_nat (length ["amy-adams"; "adam-driver"]) ≤ Z.max 1 5
  ∧ ({["amy-adams"; "adam-driver"]} : gset string)
    = ∅ ∪ list_to_set ["amy-adams"; "adam-driver"]
  ∧ (∀ x, x ∈ ["amy-adams"; "adam-driver"] →
          (x ∉ (∅ : gset string)) ∧ is_empty x = false
          ∧ is_individual_slug x = true
          ∧ ∃ sp h, Some letter_page = Some sp ∧ h ∈ listing_hrefs sp
                    ∧ safe_slug_from_href h = Ok (Some x))
  ∧ (Some letter_page = None →
     ["amy-adams"; "adam-driver"] = [] ∧ ({["amy-adams"; "adam-driver"]} : gset string) = ∅).
Proof.
  refine (proj2 (fetch_letter_slugs_returns_new_individuals (λ _ _, Some letter_page)
                   "a" 5 ∅ [] _ _ [EFetch "a" true; ESleep] _)).
  vm_compute. reflexivity.
Defined.

Lemma alphabet_main_witness :
  match alphabet_main alphabet_demo 5 [] with
  | Finished file' tr =>
      ∃ all_slugs,
        NoDup all_slugs
        ∧ Z.of_nat (length all_slugs) ≤ 26 * 5
        ∧ (∀ x, x ∈ all_slugs → is_empty x = false ∧ is_individual_slug x = true)
        ∧ fetched tr = letters ++ all_slugs
        ∧ (all_slugs = [] → file' = [])
        ∧ (all_slugs ≠ [] → (length file' ≤ length all_slugs)%nat)
  | _ => False
  end.
Proof.
  pose proof (proj2 (alphabet_main_collects_distinct_slugs alphabet_demo 5 [])) as H.
  destruct (alphabet_main alphabet_demo 5 []) as [|file' tr|] eqn:E.
  - vm_compute in E. discriminate.
  - by apply H.
  - vm_compute in E. discriminate.
Defined.

Lemma snowball_main_witness :
  ∃ st new,
    bfs_loop scenario 2 3 (bfs_init (normalize_start_slug " A ")) = Some (Ok st)
    ∧ [ {| item_age := None; item_relationships_total := None;
           item_gender_inferred := unknown; item_partners := ["b"; "c"] |};
        {| item_age := None; item_relationships_total := None;
           item_gender_inferred := unknown; item_partners := ["c"; "d"] |} ]
      = [] ++ new
    ∧ (length new ≤ length (collected st))%nat
    ∧ Z.of_nat (length new) ≤ Z.max 0 2
    ∧ fetched [EFetch "a" true; ESleep; EFetch "b" true; ESleep;
               EFetch "a" true; ESleep; EFetch "b" true; ESleep]
      = fetched (trace st) ++ collected st
    ∧ ∀ x, x ∈ collected st → x ∈ fetched (trace st).
Proof.
  apply (snowball_main_appends_and_fetches_twice scenario " A " 2 [] 3).
  vm_compute. reflexivity.
Defined.

Lemma extract_age_witness :
  ascii_text " 32 yrs" ∧ extract_age (PStr " 32 yrs") = Ok (Some 32).
Proof.
  split; [reflexivity |].
  refine (proj1 (proj2 (proj2 (extract_age_of_int_and_string " 32 yrs" _))) _ "32" _).
  - reflexivity.
  - reflexivity.
  - apply search_digits_Some. reflexivity.
Defined.
